(** * Console stream controller (resources/scripts/components/server/Console.tsx)

    A shallow embedding of the console component: the line renderers, the
    keyboard handler over the command history, and the connection effect
    that subscribes the renderers to the socket instance.

    JavaScript strings are sequences of UTF-16 code units; they are kept
    as lists of code units so that the regular expression used by the
    renderers sees the same characters as in the browser. *)

From Stdlib Require Import String Ascii List ZArith NArith Bool Lia.
Import ListNotations.

(** ** Strings *)

Module JS.

Local Open Scope N_scope.

Definition jsstring := list N.

(** A literal of the source, one code unit per character. *)
Definition str (s : string) : jsstring :=
  List.map N_of_ascii (list_ascii_of_string s).

Fixpoint eqb (a b : jsstring) : bool :=
  match a, b with
  | [], [] => true
  | x :: a', y :: b' => (x =? y) && eqb a' b'
  | _, _ => false
  end.

Definition CR : N := 13.
Definition LF : N := 10.
Definition LS : N := 8232.   (* U+2028 *)
Definition PS : N := 8233.   (* U+2029 *)
Definition ESC : N := 27.    (* U+001B *)

(** ECMAScript's LineTerminator production. *)
Definition isLineTerminator (c : N) : bool :=
  (c =? LF) || (c =? CR) || (c =? LS) || (c =? PS).

(** The assertion [$] under the [m] flag: the end of the input, or a
    position directly before a line terminator. *)
Definition at_line_end (rest : jsstring) : bool :=
  match rest with
  | [] => true
  | c :: _ => isLineTerminator c
  end.

(** One attempt of [/(?:\r\n|\r|\n)$/im] at the head of [s]; the
    alternatives are tried left to right and the result is the input that
    follows the match.  The [i] flag changes nothing: no other code unit
    canonicalizes to CR or LF. *)
Definition match_terminator (s : jsstring) : option jsstring :=
  match s with
  | [] => None
  | c :: rest =>
      let crlf :=
        match rest with
        | d :: rest' =>
            if (c =? CR) && (d =? LF) && at_line_end rest'
            then Some rest' else None
        | [] => None
        end in
      match crlf with
      | Some r => Some r
      | None =>
          if (c =? CR) && at_line_end rest then Some rest
          else if (c =? LF) && at_line_end rest then Some rest
          else None
      end
  end.

(** [line.replace(/(?:\r\n|\r|\n)$/im, '')]: the regular expression has no
    [g] flag, so the leftmost match alone is replaced. *)
Fixpoint replace_terminator (s : jsstring) : jsstring :=
  match s with
  | [] => []
  | c :: tl =>
      match match_terminator s with
      | Some rest => rest
      | None => c :: replace_terminator tl
      end
  end.

(** [a[i]] on an array, for an integral index: [undefined] out of range. *)
Definition index {A : Type} (a : list A) (i : Z) : option A :=
  if (i <? 0)%Z then None else nth_error a (Z.to_nat i).

(** [x || ''] for [x] a string or [undefined]. *)
Definition or_empty (x : option jsstring) : jsstring :=
  match x with
  | Some (c :: s) => c :: s
  | _ => []
  end.

(** [a.slice(0, n)]. *)
Definition slice0 {A : Type} (n : nat) (a : list A) : list A := firstn n a.

End JS.

Import JS.

(** The rendering rule of the specification for raw output lines: a single
    trailing line terminator (CR LF, CR or LF) is dropped and nothing else
    changes.  Kept apart from [replace_terminator], which is what the
    source runs. *)
Definition spec_strip_trailing (s : jsstring) : jsstring :=
  match rev s with
  | l :: c :: r => if ((l =? LF) && (c =? CR))%N then rev r
                   else if ((l =? LF) || (l =? CR))%N then rev (c :: r)
                   else s
  | [l] => if ((l =? LF) || (l =? CR))%N then [] else s
  | [] => s
  end.

(** ** External collaborators

    The terminal, the socket instance and the keyboard event are objects
    the component calls into.  The component is embedded as the sequence
    of calls it makes; [exec] gives the calls their meaning on an abstract
    state of the collaborators. *)

(** Identity of a socket instance (a [Websocket] object). *)
Definition Inst := nat.

(** Modelled from the spec: the event names of [SocketEvent] and the
    request name of [SocketRequest] (module [@/components/server/events],
    which the component imports), as section 6 enumerates them. *)
Module SocketEvent.
Definition STATUS : jsstring := str "status".
Definition CONSOLE_OUTPUT : jsstring := str "console output".
Definition INSTALL_OUTPUT : jsstring := str "install output".
Definition TRANSFER_LOGS : jsstring := str "transfer logs".
Definition TRANSFER_STATUS : jsstring := str "transfer status".
Definition DAEMON_MESSAGE : jsstring := str "daemon message".
Definition DAEMON_ERROR : jsstring := str "daemon error".
End SocketEvent.

Module SocketRequest.
Definition SEND_LOGS : jsstring := str "send logs".
End SocketRequest.

(** The functions the effect hands to [addListener].  A function value is
    identified by the render that created its closure and by which
    function of the component body it is. *)
Inductive HandlerKind :=
| PowerChangeEvent      (* handlePowerChangeEvent *)
| ConsoleOutput         (* handleConsoleOutput *)
| TransferStatus        (* handleTransferStatus *)
| DaemonMessage         (* line => handleConsoleOutput(line, true) *)
| DaemonErrorOutput.    (* handleDaemonErrorOutput *)

Record Handler := { h_render : nat; h_kind : HandlerKind }.

Inductive Call :=
| TermWriteln (data : jsstring)                         (* terminal.writeln(data) *)
| TermClear                                             (* terminal.clear() *)
| AddListener (i : Inst) (key : jsstring) (h : Handler)
| RemoveListener (i : Inst) (key : jsstring) (h : Handler)
| Send (i : Inst) (event : jsstring) (payload : option jsstring)
| PreventDefault.                                       (* e.preventDefault() *)

Definition Listener : Type := Inst * jsstring * Handler.
Definition Request : Type := Inst * jsstring * option jsstring.

(** Modelled from the spec: the visible buffer is a sequence of rendered
    lines that is appended to or cleared in full (section 3); the
    instance keeps the handlers added per event name, removes one on
    [removeListener] and records what is sent (section 3).  [registry]
    holds the handlers this component has added. *)
Record World := {
  buffer : list jsstring;
  registry : list Listener;
  outbox : list Request
}.

Definition kind_eqb (a b : HandlerKind) : bool :=
  match a, b with
  | PowerChangeEvent, PowerChangeEvent
  | ConsoleOutput, ConsoleOutput
  | TransferStatus, TransferStatus
  | DaemonMessage, DaemonMessage
  | DaemonErrorOutput, DaemonErrorOutput => true
  | _, _ => false
  end.

(** [===] on function values. *)
Definition handler_eqb (a b : Handler) : bool :=
  Nat.eqb (h_render a) (h_render b) && kind_eqb (h_kind a) (h_kind b).

Definition listener_eqb (a b : Listener) : bool :=
  let '(i, k, h) := a in
  let '(j, l, g) := b in
  Nat.eqb i j && JS.eqb k l && handler_eqb h g.

Fixpoint remove_first (x : Listener) (l : list Listener) : list Listener :=
  match l with
  | [] => []
  | y :: t => if listener_eqb x y then t else y :: remove_first x t
  end.

(** An emitter's [removeListener] drops at most one entry, the most
    recently added one that matches. *)
Definition remove_last (x : Listener) (l : list Listener) : list Listener :=
  rev (remove_first x (rev l)).

Definition exec (w : World) (c : Call) : World :=
  match c with
  | TermWriteln data =>
      {| buffer := buffer w ++ [data]; registry := registry w; outbox := outbox w |}
  | TermClear =>
      {| buffer := []; registry := registry w; outbox := outbox w |}
  | AddListener i key h =>
      {| buffer := buffer w; registry := registry w ++ [(i, key, h)]; outbox := outbox w |}
  | RemoveListener i key h =>
      {| buffer := buffer w; registry := remove_last (i, key, h) (registry w);
         outbox := outbox w |}
  | Send i event payload =>
      {| buffer := buffer w; registry := registry w;
         outbox := outbox w ++ [(i, event, payload)] |}
  | PreventDefault => w
  end.

Definition run (cs : list Call) (w : World) : World := fold_left exec cs w.

(** ** Line renderers *)

Definition SGR_RESET : jsstring := ESC :: str "[0m".

Definition TERMINAL_PRELUDE : jsstring :=
  ESC :: str "[1m" ++ ESC :: str "[33mcontainer@pterodactyl~ " ++ SGR_RESET.

Definition handleConsoleOutput (line : jsstring) (prelude : bool) : list Call :=
  [TermWriteln ((if prelude then TERMINAL_PRELUDE else [])
                ++ replace_terminator line ++ SGR_RESET)].

Definition handleTransferStatus (status : jsstring) : list Call :=
  if JS.eqb status (str "failure") then
    [TermWriteln (TERMINAL_PRELUDE ++ str "Transfer has failed." ++ SGR_RESET)]
  else if JS.eqb status (str "archive") then
    [TermWriteln (TERMINAL_PRELUDE
       ++ str "Server has been archived successfully, attempting connection to target node.."
       ++ SGR_RESET)]
  else [].

Definition handleDaemonErrorOutput (line : jsstring) : list Call :=
  [TermWriteln (TERMINAL_PRELUDE ++ (ESC :: str "[1m" ++ ESC :: str "[41m")
                ++ replace_terminator line ++ SGR_RESET)].

Definition handlePowerChangeEvent (state : jsstring) : list Call :=
  [TermWriteln (TERMINAL_PRELUDE ++ str "Server marked as " ++ state
                ++ str "..." ++ SGR_RESET)].

(** Calling a registered function with the payload of an event; the
    emitter passes one argument, so [prelude] takes its default. *)
Definition invoke (h : Handler) (payload : jsstring) : list Call :=
  match h_kind h with
  | PowerChangeEvent => handlePowerChangeEvent payload
  | ConsoleOutput => handleConsoleOutput payload false
  | TransferStatus => handleTransferStatus payload
  | DaemonMessage => handleConsoleOutput payload true
  | DaemonErrorOutput => handleDaemonErrorOutput payload
  end.

(** The instance [i] emits [name] with [payload]: every handler added
    under that name on that instance is called, in the order added. *)
Definition emit (i : Inst) (name payload : jsstring) (w : World) : World :=
  run (flat_map (fun l : Listener =>
                   let '(j, key, h) := l in
                   if Nat.eqb j i && JS.eqb key name then invoke h payload else [])
                (registry w)) w.

(** ** Keyboard handler *)

(** What the handler reads and writes besides the socket: the persisted
    command history, the [historyIndex] state and [e.currentTarget.value],
    the content of the input field. *)
Record Input := {
  history : list jsstring;
  historyIndex : Z;
  value : jsstring
}.

Local Open Scope Z_scope.

(** [handleCommandKeyDown], for the key [key] and the socket instance of
    the render the handler belongs to.  The three [if]s run one after the
    other; [history] and [historyIndex] are read from the values of that
    render, [command] from the input field as the earlier branches left it. *)
Definition handleCommandKeyDown (instance : option Inst) (key : jsstring)
    (st : Input) : Input * list Call :=
  let '(index1, value1, calls1) :=
    if JS.eqb key (str "ArrowUp") then
      let newIndex := Z.min (historyIndex st + 1) (Z.of_nat (length (history st)) - 1) in
      (newIndex, or_empty (JS.index (history st) newIndex), [PreventDefault])
    else (historyIndex st, value st, []) in
  let '(index2, value2) :=
    if JS.eqb key (str "ArrowDown") then
      let newIndex := Z.max (historyIndex st - 1) (-1) in
      (newIndex, or_empty (JS.index (history st) newIndex))
    else (index1, value1) in
  let command := value2 in
  if JS.eqb key (str "Enter") && (0 <? Z.of_nat (length command)) then
    ({| history := slice0 32 (command :: history st);
        historyIndex := -1;
        value := [] |},
     calls1 ++ match instance with
               | Some i => [Send i (str "send command") (Some command)]
               | None => []
               end)
  else
    ({| history := history st; historyIndex := index2; value := value2 |}, calls1).

Local Close Scope Z_scope.

(** The arrow keys, for statements about sequences of them. *)
Inductive Arrow := Up | Down.

Definition arrow_key (a : Arrow) : jsstring :=
  match a with
  | Up => str "ArrowUp"
  | Down => str "ArrowDown"
  end.

Definition press (instance : option Inst) (st : Input) (key : jsstring) : Input :=
  fst (handleCommandKeyDown instance key st).

Definition press_arrows (instance : option Inst) (ks : list Arrow) (st : Input) : Input :=
  fold_left (fun s a => press instance s (arrow_key a)) ks st.

(** The user types [command] into the field and presses Enter. *)
Definition submit (instance : option Inst) (st : Input) (command : jsstring) : Input :=
  press instance
    {| history := history st; historyIndex := historyIndex st; value := command |}
    (str "Enter").

Definition submit_all (instance : option Inst) (cs : list jsstring) (st : Input) : Input :=
  fold_left (submit instance) cs st.

(** ** Connection effect *)

(** The store values a render of the component reads. *)
Record Props := {
  connected : bool;
  instance : option Inst;
  isTransferring : bool
}.

(** An object literal with string keys: its properties in insertion order. *)
Definition Obj (A : Type) : Type := list (jsstring * A).

Definition keys {A : Type} (o : Obj A) : list jsstring := List.map fst o.

Fixpoint get {A : Type} (o : Obj A) (key : jsstring) : option A :=
  match o with
  | [] => None
  | (k, v) :: o' => if JS.eqb k key then Some v else get o' key
  end.

(** [Object.keys(o).forEach(key => f(key, o[key]))]. *)
Definition forEach_key {A : Type} (f : jsstring -> A -> Call) (o : Obj A) : list Call :=
  flat_map (fun key => match get o key with
                       | Some v => [f key v]
                       | None => []
                       end) (keys o).

(** The [listeners] object the effect of render [render] builds. *)
Definition listeners (render : nat) : Obj Handler :=
  [ (SocketEvent.STATUS, {| h_render := render; h_kind := PowerChangeEvent |});
    (SocketEvent.CONSOLE_OUTPUT, {| h_render := render; h_kind := ConsoleOutput |});
    (SocketEvent.INSTALL_OUTPUT, {| h_render := render; h_kind := ConsoleOutput |});
    (SocketEvent.TRANSFER_LOGS, {| h_render := render; h_kind := ConsoleOutput |});
    (SocketEvent.TRANSFER_STATUS, {| h_render := render; h_kind := TransferStatus |});
    (SocketEvent.DAEMON_MESSAGE, {| h_render := render; h_kind := DaemonMessage |});
    (SocketEvent.DAEMON_ERROR, {| h_render := render; h_kind := DaemonErrorOutput |}) ].

(** The body of [useEffect(..., [connected, instance])]. *)
Definition effect (render : nat) (p : Props) : list Call :=
  match connected p, instance p with
  | true, Some i =>
      (if negb (isTransferring p) then [TermClear] else [])
      ++ forEach_key (AddListener i) (listeners render)
      ++ [Send i SocketRequest.SEND_LOGS None]
  | _, _ => []
  end.

(** The function that effect returns; it closes over the same [instance]
    and the same [listeners] object. *)
Definition cleanup (render : nat) (p : Props) : list Call :=
  match instance p with
  | Some i => forEach_key (RemoveListener i) (listeners render)
  | None => []
  end.

(** ** Component life cycle

    React runs the effect after the first render and after every render
    in which [connected] or [instance] differs from the render before;
    before it runs the effect again, and when the component unmounts, it
    calls the function the last run returned. *)

Record Mounted := {
  props : Props;            (* the values of the last render *)
  effect_render : nat;      (* the render whose effect ran last *)
  effect_props : Props      (* the values that effect closed over *)
}.

Record Component := {
  next_render : nat;
  mounted : option Mounted
}.

Definition deps_eqb (p q : Props) : bool :=
  Bool.eqb (connected p) (connected q)
  && match instance p, instance q with
     | Some i, Some j => Nat.eqb i j
     | None, None => true
     | _, _ => false
     end.

(** The joint condition that activates the event router. *)
Definition joint (p : Props) : bool :=
  connected p && match instance p with Some _ => true | None => false end.

Definition render (p : Props) (c : Component) : Component * list Call :=
  let n := next_render c in
  match mounted c with
  | None =>
      ({| next_render := S n;
          mounted := Some {| props := p; effect_render := n; effect_props := p |} |},
       effect n p)
  | Some m =>
      if deps_eqb (props m) p then
        ({| next_render := S n;
            mounted := Some {| props := p; effect_render := effect_render m;
                               effect_props := effect_props m |} |},
         [])
      else
        ({| next_render := S n;
            mounted := Some {| props := p; effect_render := n; effect_props := p |} |},
         cleanup (effect_render m) (effect_props m) ++ effect n p)
  end.

Definition unmount (c : Component) : Component * list Call :=
  match mounted c with
  | None => (c, [])
  | Some m =>
      ({| next_render := next_render c; mounted := None |},
       cleanup (effect_render m) (effect_props m))
  end.

(** ** The console as a transition system *)

Record Console := {
  component : Component;
  input : Input;
  world : World
}.

Inductive Event :=
| Render (p : Props)                            (* the store changed *)
| Unmount
| Emit (i : Inst) (name payload : jsstring)     (* a socket instance emits *)
| Typed (text : jsstring)                       (* the user edits the field *)
| KeyDown (key : jsstring).

Definition step (s : Console) (e : Event) : Console :=
  match e with
  | Render p =>
      let '(c, calls) := render p (component s) in
      {| component := c;
         input := match mounted (component s) with
                  | Some _ => input s
                  | None => {| history := history (input s); historyIndex := (-1)%Z;
                               value := [] |}
                  end;
         world := run calls (world s) |}
  | Unmount =>
      let '(c, calls) := unmount (component s) in
      {| component := c; input := input s; world := run calls (world s) |}
  | Emit i name payload =>
      {| component := component s; input := input s;
         world := emit i name payload (world s) |}
  | Typed text =>
      match mounted (component s) with
      | Some _ =>
          {| component := component s;
             input := {| history := history (input s);
                         historyIndex := historyIndex (input s); value := text |};
             world := world s |}
      | None => s
      end
  | KeyDown key =>
      match mounted (component s) with
      | Some m =>
          let '(i, calls) := handleCommandKeyDown (instance (props m)) key (input s) in
          {| component := component s; input := i; world := run calls (world s) |}
      | None => s
      end
  end.

Definition steps (es : list Event) (s : Console) : Console := fold_left step es s.

(** Before the first mount: nothing rendered, nothing subscribed, an
    empty terminal and an empty history. *)
Definition initial : Console :=
  {| component := {| next_render := 0; mounted := None |};
     input := {| history := []; historyIndex := (-1)%Z; value := [] |};
     world := {| buffer := []; registry := []; outbox := [] |} |}.

(** The listeners of one activation, as the instance holds them. *)
Definition registered (render : nat) (i : Inst) : list Listener :=
  List.map (fun kh : jsstring * Handler => (i, fst kh, snd kh)) (listeners render).

Definition recognized : list jsstring := keys (listeners 0).



(** The effect runs on a render with the values [p]. *)
Definition effect_due (c : Component) (p : Props) : bool :=
  match mounted c with
  | None => true
  | Some m => negb (deps_eqb (props m) p)
  end.

(** The joint condition did not hold at the last render, if any. *)
Definition inactive (c : Component) : bool :=
  match mounted c with
  | None => true
  | Some m => negb (joint (props m))
  end.


Definition touches_registry (c : Call) : bool :=
  match c with
  | AddListener _ _ _ | RemoveListener _ _ _ => true
  | _ => false
  end.

Definition touches_buffer (c : Call) : bool :=
  match c with
  | TermWriteln _ | TermClear => true
  | _ => false
  end.

(** [s.endsWith(suffix)]. *)
Definition endsWith (s suffix : jsstring) : bool :=
  JS.eqb (skipn (length s - length suffix) s) suffix.

(** A call that writes a line closes it with the reset marker. *)
Definition closes_style (c : Call) : bool :=
  match c with
  | TermWriteln data => endsWith data SGR_RESET
  | _ => true
  end.

(** ** Terminal set-up

    The first effect of the component, [useEffect(..., [terminal, connected])],
    and the key handler it attaches to the terminal. *)

Inductive Addon :=
| FitAddon | SearchAddon | SearchBarAddon | WebLinksAddon | ScrollDownHelperAddon.

Inductive SetupCall :=
| LoadAddon (a : Addon)             (* terminal.loadAddon(a) *)
| TermOpen                          (* terminal.open(ref.current) *)
| FitAddonFit                       (* fitAddon.fit() *)
| AttachCustomKeyEventHandler       (* terminal.attachCustomKeyEventHandler(...) *)
| ExecCommandCopy                   (* document.execCommand('copy') *)
| KeyPreventDefault                 (* e.preventDefault() *)
| SearchBarShow                     (* searchBar.show() *)
| SearchBarHidden.                  (* searchBar.hidden() *)



(** The body of the effect; [ref_current] says whether [ref.current] is
    set and [element] whether [terminal.element] is. *)
Definition setup (connected ref_current element : bool) : list SetupCall :=
  if connected && ref_current && negb element then
    [ LoadAddon FitAddon; LoadAddon SearchAddon; LoadAddon SearchBarAddon;
      LoadAddon WebLinksAddon; LoadAddon ScrollDownHelperAddon;
      TermOpen; FitAddonFit; AttachCustomKeyEventHandler ]
  else [].

(** The callback of the (debounced) resize listener. *)
Definition onResize (element : bool) : list SetupCall :=
  if element then [FitAddonFit] else [].

Definition is_TermOpen (c : SetupCall) : bool :=
  match c with TermOpen => true | _ => false end.

(** The memoized terminal of one mounted component: whether it has been
    opened ([terminal.element] is set by [open]), the value of
    [connected] at the last render, and the calls made so far. *)
Record Terminal := {
  element : bool;
  setup_deps : option bool;
  setup_log : list SetupCall
}.

Definition fresh_terminal : Terminal :=
  {| element := false; setup_deps := None; setup_log := [] |}.

(** A render with the given value of [connected]: the effect runs after
    the first render and when [connected] changed; the terminal's [div] is
    rendered unconditionally, so [ref.current] is set when it runs. *)
Definition setup_render (t : Terminal) (connected : bool) : Terminal :=
  let due := match setup_deps t with
             | None => true
             | Some c => negb (Bool.eqb c connected)
             end in
  let calls := if due then setup connected true (element t) else [] in
  {| element := element t || existsb is_TermOpen calls;
     setup_deps := Some connected;
     setup_log := setup_log t ++ calls |}.

Definition setup_renders (cs : list bool) (t : Terminal) : Terminal :=
  fold_left setup_render cs t.

(** ** What the component renders *)

Fixpoint isPrefix (p s : jsstring) : bool :=
  match p, s with
  | [], _ => true
  | x :: p', y :: s' => (x =? y)%N && isPrefix p' s'
  | _ :: _, [] => false
  end.

(** [s.includes(sub)]. *)
Fixpoint includes (s sub : jsstring) : bool :=
  isPrefix sub s ||
  match s with
  | [] => false
  | _ :: s' => includes s' sub
  end.

(** [a.includes(x)] on an array of strings. *)
Definition array_includes (a : list jsstring) (x : jsstring) : bool :=
  existsb (JS.eqb x) a.

(** The URL [openConsole] hands to [window.open]. *)
Definition openConsole (href : jsstring) : jsstring := href ++ str "/console".

(** [disabled={!instance || !connected}] on the command input. *)
Definition commandInputDisabled (p : Props) : bool :=
  match instance p with Some _ => false | None => true end || negb (connected p).

Record InputRow := {
  row_disabled : bool;        (* the command input *)
  row_popout_hidden : bool    (* the button that calls [openConsole] *)
}.

Record ConsoleView := {
  view_fullscreen : bool;          (* the full-screen layout classes *)
  view_spinner : bool;             (* SpinnerOverlay visible *)
  view_rounded_bottom : bool;      (* the terminal box closes the panel *)
  view_row : option InputRow       (* the input row, when rendered *)
}.

(** The element the component returns, for the page address [href], the
    permission [canSendCommands] and the store values [p]. *)
Definition consoleView (href : jsstring) (canSendCommands : bool) (p : Props)
    : ConsoleView :=
  {| view_fullscreen := includes href (str "/console");
     view_spinner := negb (connected p);
     view_rounded_bottom := negb canSendCommands;
     view_row := if canSendCommands then
                   Some {| row_disabled := commandInputDisabled p;
                           row_popout_hidden := includes href (str "/console") |}
                 else None |}.

(** The command input is on the page and accepts keys. *)
Definition input_enabled (v : ConsoleView) : bool :=
  match view_row v with
  | Some r => negb (row_disabled r)
  | None => false
  end.

(** Keyboard events reach the handler only through an enabled input:
    [can] is [canSendCommands] at the last render. *)
Definition ui_step (href : jsstring) (s : Console) (ce : bool * Event) : Console :=
  let '(can, e) := ce in
  match e with
  | Typed _ | KeyDown _ =>
      match mounted (component s) with
      | Some m => if input_enabled (consoleView href can (props m)) then step s e else s
      | None => s
      end
  | _ => step s e
  end.

Definition ui_steps (href : jsstring) (es : list (bool * Event)) (s : Console) : Console :=
  fold_left (ui_step href) es s.

(** The commands among the requests sent, oldest first. *)
Definition sent_commands (o : list Request) : list jsstring :=
  flat_map (fun r : Request =>
              let '(_, event, payload) := r in
              if JS.eqb event (str "send command") then
                match payload with Some c => [c] | None => [] end
              else []) o.

(** The requests among a sequence of calls. *)
Definition requests (cs : list Call) : list Request :=
  flat_map (fun c => match c with
                     | Send i event payload => [(i, event, payload)]
                     | _ => []
                     end) cs.

(** ** The page around the console (ServerConsole.tsx) *)

Inductive Block :=
| ServerDetailsBlock
| InstallingNotice          (* "currently running its installation process" *)
| TransferringNotice        (* "currently being transferred to another node" *)
| PowerControls             (* inside [Can], which checks the power permissions *)
| ChunkedConsole
| ChunkedStatGraphs
| EulaModalFeature
| JavaVersionModalFeature
| GSLTokenModalFeature
| PIDLimitModalFeature
| SteamDiskSpaceFeature.


(** [cond && <Block />] among the children of an element. *)
Definition when (cond : bool) (b : Block) : list Block := if cond then [b] else [].

(** The blocks [ServerConsole] renders, in document order. *)
Definition ServerConsole (href : jsstring) (isInstalling isTransferring : bool)
    (eggFeatures : list jsstring) : list Block :=
  let fullscreen := includes href (str "/console") in
  if fullscreen then [ChunkedConsole]
  else
    [ ServerDetailsBlock;
      (if isInstalling then InstallingNotice
       else if isTransferring then TransferringNotice
       else PowerControls);
      ChunkedConsole;
      ChunkedStatGraphs ]
    ++ when (array_includes eggFeatures (str "eula")) EulaModalFeature
    ++ when (array_includes eggFeatures (str "java_version")) JavaVersionModalFeature
    ++ when (array_includes eggFeatures (str "gsl_token")) GSLTokenModalFeature
    ++ when (array_includes eggFeatures (str "pid_limit")) PIDLimitModalFeature
    ++ when (array_includes eggFeatures (str "steam_disk_space")) SteamDiskSpaceFeature.

(** The feature name a modal is rendered for. *)
Definition feature_modals : list (jsstring * Block) :=
  [ (str "eula", EulaModalFeature);
    (str "java_version", JavaVersionModalFeature);
    (str "gsl_token", GSLTokenModalFeature);
    (str "pid_limit", PIDLimitModalFeature);
    (str "steam_disk_space", SteamDiskSpaceFeature) ].

(** * Properties *)

(** ** Strings and calls *)

Lemma eqb_eq (a b : jsstring) : JS.eqb a b = true <-> a = b.
Proof.
  revert b; induction a as [|x a IH]; intros [|y b]; simpl; split;
    try easy; intro E.
  - apply andb_true_iff in E as [Exy Eab].
    apply N.eqb_eq in Exy. apply IH in Eab. now subst.
  - injection E as -> ->. rewrite N.eqb_refl. now apply IH.
Qed.

Lemma eqb_refl (a : jsstring) : JS.eqb a a = true.
Proof. now apply eqb_eq. Qed.

Lemma eqb_neq (a b : jsstring) : JS.eqb a b = false <-> a <> b.
Proof.
  rewrite <- eqb_eq. destruct (JS.eqb a b); split; intro; congruence.
Qed.

Lemma or_empty_some (s : jsstring) : or_empty (Some s) = s.
Proof. now destruct s. Qed.

Lemma run_app (a b : list Call) (w : World) :
  run (a ++ b) w = run b (run a w).
Proof. unfold run. apply fold_left_app. Qed.

(** A payload without line terminators before its end: the source strips
    the closing terminator exactly as the rendering rule asks. *)
Lemma replace_terminator_single_line (body term : jsstring) :
  forallb (fun c => negb (isLineTerminator c)) body = true ->
  In term [[]; [CR; LF]; [CR]; [LF]] ->
  replace_terminator (body ++ term) = body.
Proof.
  intros Hb Ht.
  induction body as [|c body IH].
  - simpl in Ht.
    destruct Ht as [<-|[<-|[<-|[<-|[]]]]]; reflexivity.
  - simpl in Hb. apply andb_true_iff in Hb as [Hc Hb].
    specialize (IH Hb).
    assert (Hcr : (c =? CR)%N = false).
    { unfold isLineTerminator in Hc.
      destruct (c =? CR)%N; [|reflexivity].
      now rewrite orb_true_r in Hc. }
    assert (Hlf : (c =? LF)%N = false).
    { unfold isLineTerminator in Hc. now destruct (c =? LF)%N. }
    change ((c :: body) ++ term) with (c :: (body ++ term)).
    cbn [replace_terminator match_terminator].
    rewrite Hcr, Hlf. simpl.
    destruct (body ++ term); now rewrite IH.
Qed.

Lemma single_line_agrees_with_spec (body term : jsstring) :
  forallb (fun c => negb (isLineTerminator c)) body = true ->
  In term [[]; [CR; LF]; [CR]; [LF]] ->
  replace_terminator (body ++ term) = spec_strip_trailing (body ++ term).
Proof.
  intros Hb Ht. rewrite replace_terminator_single_line by assumption.
  unfold spec_strip_trailing. rewrite rev_app_distr.
  simpl in Ht.
  destruct Ht as [<-|[<-|[<-|[<-|[]]]]]; simpl.
  - rewrite app_nil_r.
    destruct (rev body) as [|l r] eqn:E.
    + now rewrite <- (rev_involutive body), E.
    + assert (Hl : isLineTerminator l = false).
      { apply negb_true_iff.
        rewrite forallb_forall in Hb. apply Hb.
        apply in_rev. rewrite E. now left. }
      unfold isLineTerminator in Hl.
      apply orb_false_iff in Hl as [Hl _].
      apply orb_false_iff in Hl as [Hl _].
      apply orb_false_iff in Hl as [Hlf Hcr].
      rewrite Hlf, Hcr. simpl. now destruct r.
  - now rewrite rev_involutive.
  - destruct (rev body) as [|l r] eqn:E.
    + now rewrite <- (rev_involutive body), E.
    + simpl. change (rev r ++ [l]) with (rev (l :: r)).
      now rewrite <- E, rev_involutive.
  - destruct (rev body) as [|l r] eqn:E.
    + now rewrite <- (rev_involutive body), E.
    + assert (Hl : isLineTerminator l = false).
      { apply negb_true_iff.
        rewrite forallb_forall in Hb. apply Hb.
        apply in_rev. rewrite E. now left. }
      unfold isLineTerminator in Hl.
      apply orb_false_iff in Hl as [Hl _].
      apply orb_false_iff in Hl as [Hl _].
      apply orb_false_iff in Hl as [_ Hcr].
      change ((LF =? LF)%N) with true. simpl.
      rewrite Hcr. simpl. change (rev r ++ [l]) with (rev (l :: r)).
      now rewrite <- E, rev_involutive.
Qed.

(** ** Keyboard handler *)

Local Open Scope Z_scope.

Lemma keydown_up (inst : option Inst) (st : Input) :
  handleCommandKeyDown inst (str "ArrowUp") st =
  (let newIndex := Z.min (historyIndex st + 1) (Z.of_nat (length (history st)) - 1) in
   {| history := history st; historyIndex := newIndex;
      value := or_empty (JS.index (history st) newIndex) |},
   [PreventDefault]).
Proof.
  unfold handleCommandKeyDown.
  change (JS.eqb (str "ArrowUp") (str "ArrowUp")) with true.
  change (JS.eqb (str "ArrowUp") (str "ArrowDown")) with false.
  change (JS.eqb (str "ArrowUp") (str "Enter")) with false.
  reflexivity.
Qed.

Lemma keydown_down (inst : option Inst) (st : Input) :
  handleCommandKeyDown inst (str "ArrowDown") st =
  (let newIndex := Z.max (historyIndex st - 1) (-1) in
   {| history := history st; historyIndex := newIndex;
      value := or_empty (JS.index (history st) newIndex) |},
   []).
Proof.
  unfold handleCommandKeyDown.
  change (JS.eqb (str "ArrowDown") (str "ArrowUp")) with false.
  change (JS.eqb (str "ArrowDown") (str "ArrowDown")) with true.
  change (JS.eqb (str "ArrowDown") (str "Enter")) with false.
  reflexivity.
Qed.

Lemma keydown_enter (inst : option Inst) (st : Input) :
  handleCommandKeyDown inst (str "Enter") st =
  match value st with
  | [] => (st, [])
  | _ :: _ =>
      ({| history := firstn 32 (value st :: history st); historyIndex := -1;
          value := [] |},
       match inst with
       | Some i => [Send i (str "send command") (Some (value st))]
       | None => []
       end)
  end.
Proof.
  unfold handleCommandKeyDown.
  change (JS.eqb (str "Enter") (str "ArrowUp")) with false.
  change (JS.eqb (str "Enter") (str "ArrowDown")) with false.
  change (JS.eqb (str "Enter") (str "Enter")) with true.
  cbv iota beta.
  destruct st as [h ix [|c v]]; reflexivity.
Qed.

Lemma index_in_range {A : Type} (a : list A) (i : Z) :
  0 <= i < Z.of_nat (length a) -> exists x, JS.index a i = Some x.
Proof.
  intros Hi. unfold JS.index.
  destruct (i <? 0) eqn:E; [apply Z.ltb_lt in E; lia|].
  destruct (nth_error a (Z.to_nat i)) as [x|] eqn:Hn; [now exists x|].
  apply nth_error_None in Hn. lia.
Qed.

Lemma index_negative {A : Type} (a : list A) (i : Z) :
  i < 0 -> JS.index a i = None.
Proof.
  intros Hi. unfold JS.index.
  destruct (i <? 0) eqn:E; [reflexivity|apply Z.ltb_ge in E; lia].
Qed.

Lemma press_arrows_snoc (inst : option Inst) (ks : list Arrow) (a : Arrow) (st : Input) :
  press_arrows inst (ks ++ [a]) st = press inst (press_arrows inst ks st) (arrow_key a).
Proof. unfold press_arrows. now rewrite fold_left_app. Qed.

Lemma press_arrow_spec (inst : option Inst) (a : Arrow) (st : Input) :
  let N := Z.of_nat (length (history st)) in
  let st' := press inst st (arrow_key a) in
  history st' = history st /\
  historyIndex st' = match a with
                     | Up => Z.min (historyIndex st + 1) (N - 1)
                     | Down => Z.max (historyIndex st - 1) (-1)
                     end /\
  value st' = or_empty (JS.index (history st) (historyIndex st')).
Proof.
  unfold press. destruct a; unfold arrow_key.
  - rewrite keydown_up. simpl. auto.
  - rewrite keydown_down. simpl. auto.
Qed.

Lemma press_arrows_range (inst : option Inst) (H : list jsstring) (v0 : jsstring)
    (ks : list Arrow) :
  let st := press_arrows inst ks {| history := H; historyIndex := -1; value := v0 |} in
  history st = H /\ -1 <= historyIndex st <= Z.of_nat (length H) - 1.
Proof.
  induction ks as [|a ks IH] using rev_ind.
  - simpl. split; [reflexivity|lia].
  - cbv zeta in *. rewrite press_arrows_snoc.
    destruct IH as [IHh IHr].
    destruct (press_arrow_spec inst a
                (press_arrows inst ks {| history := H; historyIndex := -1; value := v0 |}))
      as [Hh [Hi _]].
    rewrite IHh in *. split; [assumption|].
    rewrite Hi. destruct a; lia.
Qed.

(** C3: whatever sequence of Up and Down keys is pressed on a history of
    length N, starting from cursor -1, the cursor is in [-1, N-1] before
    and after the next key; Up moves it to min(cursor+1, N-1) and Down to
    max(cursor-1, -1); the history is untouched; and after the key the
    input field holds history[cursor] when the cursor is at least 0 and
    the empty string when it is -1 (the only cursor an empty history
    allows). *)
Theorem history_cursor_navigation :
  forall (inst : option Inst) (H : list jsstring) (v0 : jsstring)
         (ks : list Arrow) (a : Arrow),
    let N := Z.of_nat (length H) in
    let before :=
      press_arrows inst ks {| history := H; historyIndex := -1; value := v0 |} in
    let after := press inst before (arrow_key a) in
    -1 <= historyIndex before <= N - 1 /\
    historyIndex after = match a with
                         | Up => Z.min (historyIndex before + 1) (N - 1)
                         | Down => Z.max (historyIndex before - 1) (-1)
                         end /\
    -1 <= historyIndex after <= N - 1 /\
    history after = H /\
    ((0 <= historyIndex after /\
      JS.index H (historyIndex after) = Some (value after)) \/
     (historyIndex after = -1 /\ value after = [])).
Proof.
  intros inst H v0 ks a N before after.
  destruct (press_arrows_range inst H v0 ks) as [Hh Hr].
  fold before in Hh, Hr. fold N in Hr.
  destruct (press_arrow_spec inst a before) as [Hh' [Hi Hv]].
  fold after in Hh', Hi, Hv. rewrite Hh in *. fold N in Hi.
  assert (Hr' : -1 <= historyIndex after <= N - 1) by (rewrite Hi; destruct a; lia).
  repeat split; try assumption; try lia.
  destruct (Z.eq_dec (historyIndex after) (-1)) as [E|E].
  - right. split; [assumption|].
    rewrite Hv, index_negative by lia. reflexivity.
  - left. split; [lia|].
    destruct (index_in_range H (historyIndex after)) as [x Hx]; [lia|].
    rewrite Hv, Hx, or_empty_some. reflexivity.
Qed.

Local Close Scope Z_scope.

(** ** Command history *)

Lemma firstn_app_firstn {A : Type} (n : nat) (l m : list A) :
  firstn n (l ++ firstn n m) = firstn n (l ++ m).
Proof.
  rewrite !firstn_app, firstn_firstn.
  now rewrite (Nat.min_l (n - length l) n) by lia.
Qed.

Lemma submit_history (inst : option Inst) (st : Input) (c : jsstring) :
  c <> [] -> history (submit inst st c) = firstn 32 (c :: history st).
Proof.
  intros Hc. unfold submit, press. rewrite keydown_enter. simpl.
  destruct c; [contradiction|reflexivity].
Qed.

Lemma submit_all_snoc (inst : option Inst) (cs : list jsstring) (c : jsstring)
    (st : Input) :
  submit_all inst (cs ++ [c]) st = submit inst (submit_all inst cs st) c.
Proof. unfold submit_all. now rewrite fold_left_app. Qed.

Lemma submit_all_history (inst : option Inst) (cs : list jsstring) (st : Input) :
  Forall (fun c => c <> []) cs ->
  history (submit_all inst cs st) =
  match cs with
  | [] => history st
  | _ :: _ => firstn 32 (rev cs ++ history st)
  end.
Proof.
  induction cs as [|c cs IH] using rev_ind; intros Hne; [reflexivity|].
  apply Forall_app in Hne as [Hcs Hc].
  inversion_clear Hc as [|? ? Hc' _].
  rewrite submit_all_snoc, submit_history, (IH Hcs) by assumption.
  rewrite rev_app_distr.
  assert (Hr : match cs ++ [c] with
               | [] => history st
               | _ :: _ => firstn 32 ((rev [c] ++ rev cs) ++ history st)
               end = firstn 32 ([c] ++ rev cs ++ history st)).
  { destruct cs; simpl; rewrite <- ?app_assoc; reflexivity. }
  rewrite Hr. clear Hr.
  destruct cs as [|c0 cs]; [reflexivity|].
  exact (firstn_app_firstn 32 [c] (rev (c0 :: cs) ++ history st)).
Qed.

Lemma press_history_bound (inst : option Inst) (st : Input) (key : jsstring) :
  length (history st) <= 32 -> length (history (press inst st key)) <= 32.
Proof.
  intros Hb. unfold press, handleCommandKeyDown.
  destruct (JS.eqb key (str "ArrowUp")), (JS.eqb key (str "ArrowDown")),
    (JS.eqb key (str "Enter")); cbv zeta; cbn [andb];
  try match goal with
      | |- context [if ?b then _ else _] => destruct b
      end; cbn [fst history]; try assumption;
  unfold slice0; rewrite length_firstn; lia.
Qed.

Lemma step_history_bound (s : Console) (e : Event) :
  length (history (input s)) <= 32 -> length (history (input (step s e))) <= 32.
Proof.
  destruct s as [[n mo] inp w]. simpl. intro Hb.
  destruct e as [p| |i name payload|text|key]; simpl.
  - destruct (render p {| next_render := n; mounted := mo |}) as [c calls].
    simpl. now destruct mo.
  - destruct (unmount {| next_render := n; mounted := mo |}) as [c calls].
    exact Hb.
  - exact Hb.
  - now destruct mo.
  - destruct mo as [m|]; [|exact Hb].
    pose proof (press_history_bound (instance (props m)) inp key Hb) as Hk.
    unfold press in Hk.
    now destruct (handleCommandKeyDown (instance (props m)) key inp).
Qed.

Lemma steps_history_bound (es : list Event) (s : Console) :
  length (history (input s)) <= 32 -> length (history (input (steps es s))) <= 32.
Proof.
  revert s; induction es as [|e es IH]; intros s Hs; [assumption|].
  apply (IH (step s e)). now apply step_history_bound.
Qed.

(** C4: appending a non-empty command C to a history H yields [C] ++ H cut
    to its first 32 entries, so the history has at most 32 entries after
    every append, stays within 32 under every key, and is within 32 in
    every state the console reaches from its initial state; on a history of
    31 entries the result is C followed by all 31 entries; and 40 commands
    submitted one after the other leave exactly the last 32 of them, the
    most recent first. *)
Theorem history_append_bounded :
  forall (inst : option Inst) (st : Input) (C : jsstring),
    C <> [] ->
    history (submit inst st C) = firstn 32 ([C] ++ history st) /\
    length (history (submit inst st C)) <= 32 /\
    (forall key, length (history st) <= 32 ->
                 length (history (press inst st key)) <= 32) /\
    (forall es, length (history (input (steps es initial))) <= 32) /\
    (length (history st) = 31 ->
     history (submit inst st C) = C :: history st /\
     length (history (submit inst st C)) = 32) /\
    (forall cs, length cs = 40 -> Forall (fun c => c <> []) cs ->
                history (submit_all inst cs st) = rev (skipn 8 cs) /\
                length (history (submit_all inst cs st)) = 32).
Proof.
  intros inst st C HC.
  pose proof (submit_history inst st C HC) as Hs.
  split; [exact Hs|]. split; [rewrite Hs, length_firstn; lia|].
  split; [intros key; apply press_history_bound|].
  split; [intro es; apply steps_history_bound; simpl; lia|].
  split.
  - intros H31. rewrite Hs.
    rewrite firstn_all2 by (simpl; lia). split; [reflexivity|simpl; lia].
  - intros cs Hlen Hne.
    rewrite (submit_all_history inst cs st Hne).
    destruct cs as [|c0 cs]; [discriminate|].
    unfold jsstring in *.
    assert (Hcut : firstn 32 (rev (c0 :: cs) ++ history st) = rev (skipn 8 (c0 :: cs))).
    { rewrite firstn_app, length_rev, Hlen. simpl firstn at 2.
      now rewrite app_nil_r, firstn_rev, Hlen. }
    rewrite Hcut. split; [reflexivity|].
    rewrite length_rev, length_skipn, Hlen. reflexivity.
Qed.

Lemma history_append_bounded_witness :
  let st := {| history := List.map (fun n => [N.of_nat n]) (seq 100 31);
               historyIndex := (-1)%Z; value := [] |} in
  let cs := List.map (fun n => [N.of_nat n]) (seq 1 40) in
  history (submit None st (str "ls")) = str "ls" :: history st /\
  history (submit_all None cs st) = rev (skipn 8 cs).
Proof.
  intros st cs.
  destruct (history_append_bounded None st (str "ls") ltac:(discriminate))
    as [_ [_ [_ [_ [H31 H40]]]]].
  split.
  - apply H31. reflexivity.
  - apply (H40 cs); [reflexivity|].
    repeat constructor; discriminate.
Defined.

(** ** Enter key *)




(** C10: when the handler runs on Enter with a non-empty command and no
    socket instance, the command is still prepended to the history (cut
    to 32 entries), the cursor is reset to -1 and the input cleared, and
    no request is made. *)
Theorem enter_without_instance :
  forall (st : Input),
    value st <> [] ->
    handleCommandKeyDown None (str "Enter") st =
    ({| history := firstn 32 (value st :: history st);
        historyIndex := (-1)%Z;
        value := [] |}, []).
Proof.
  intros st Hv. rewrite keydown_enter.
  destruct (value st); [contradiction|reflexivity].
Qed.

Lemma enter_without_instance_witness :
  handleCommandKeyDown None (str "Enter")
    {| history := [str "help"]; historyIndex := 0%Z; value := str "ls" |} =
  ({| history := [str "ls"; str "help"]; historyIndex := (-1)%Z; value := [] |}, []).
Proof.
  apply (enter_without_instance
           {| history := [str "help"]; historyIndex := 0%Z; value := str "ls" |}).
  discriminate.
Defined.

(** ** Line renderers *)

Lemma endsWith_app (body suffix : jsstring) : endsWith (body ++ suffix) suffix = true.
Proof.
  unfold endsWith. rewrite length_app, Nat.add_sub, skipn_app, Nat.sub_diag.
  rewrite skipn_all. apply eqb_refl.
Qed.

Lemma invoke_closes_style (h : Handler) (payload : jsstring) :
  forallb closes_style (invoke h payload) = true.
Proof.
  unfold invoke, handleConsoleOutput, handleTransferStatus, handleDaemonErrorOutput,
    handlePowerChangeEvent.
  destruct (h_kind h); cbn [forallb closes_style];
    repeat match goal with
           | |- context [if ?b then _ else _] => destruct b
           end;
    cbn [forallb closes_style]; rewrite ?andb_true_r; try reflexivity;
    rewrite ?app_assoc; apply endsWith_app.
Qed.

(** C6: on the payload "a\n\nb", which has no line terminator at its end,
    the renderer of console, install and transfer-log output writes "a\nb"
    followed by the reset marker: the first of the two inner line feeds is
    removed, where the rendering rule leaves such a payload as it is.  On
    "text\r\r\n" it writes "text\r\n", the closing terminator still in
    place, where the rule gives "text\r". *)
Theorem console_output_inner_terminator :
  let s := str "a" ++ [LF; LF] ++ str "b" in
  let w := {| buffer := []; registry := registered 0 1; outbox := [] |} in
  handleConsoleOutput s false = [TermWriteln (str "a" ++ [LF] ++ str "b" ++ SGR_RESET)] /\
  Forall (fun name => buffer (emit 1 name s w) = [str "a" ++ [LF] ++ str "b" ++ SGR_RESET])
         [SocketEvent.CONSOLE_OUTPUT; SocketEvent.INSTALL_OUTPUT;
          SocketEvent.TRANSFER_LOGS] /\
  spec_strip_trailing s = s /\
  replace_terminator s <> spec_strip_trailing s /\
  replace_terminator (str "text" ++ [CR; CR; LF]) = str "text" ++ [CR; LF] /\
  spec_strip_trailing (str "text" ++ [CR; CR; LF]) = str "text" ++ [CR].
Proof.
  cbv zeta. repeat split; try reflexivity; try discriminate.
  repeat constructor.
Qed.

(** ** Calls and the state of the collaborators *)

Lemma run_registry (cs : list Call) (w : World) :
  forallb (fun c => negb (touches_registry c)) cs = true ->
  registry (run cs w) = registry w.
Proof.
  revert w; induction cs as [|c cs IH]; intros w Hcs; [reflexivity|].
  simpl in Hcs. apply andb_true_iff in Hcs as [Hc Hcs].
  change (run (c :: cs) w) with (run cs (exec w c)).
  rewrite IH by assumption. now destruct c.
Qed.

Lemma run_buffer (cs : list Call) (w : World) :
  forallb (fun c => negb (touches_buffer c)) cs = true ->
  buffer (run cs w) = buffer w.
Proof.
  revert w; induction cs as [|c cs IH]; intros w Hcs; [reflexivity|].
  simpl in Hcs. apply andb_true_iff in Hcs as [Hc Hcs].
  change (run (c :: cs) w) with (run cs (exec w c)).
  rewrite IH by assumption. now destruct c.
Qed.

Lemma run_closes_style (cs : list Call) (w : World) :
  forallb closes_style cs = true ->
  forallb (fun line => endsWith line SGR_RESET) (buffer w) = true ->
  forallb (fun line => endsWith line SGR_RESET) (buffer (run cs w)) = true.
Proof.
  revert w; induction cs as [|c cs IH]; intros w Hcs Hw; [assumption|].
  simpl in Hcs. apply andb_true_iff in Hcs as [Hc Hcs].
  change (run (c :: cs) w) with (run cs (exec w c)).
  apply IH; [assumption|].
  destruct c; simpl; try assumption.
  rewrite forallb_app, Hw. simpl in *. now rewrite Hc.
Qed.


Lemma emit_calls_forallb (P : Call -> bool) (i : Inst) (name payload : jsstring)
    (l : list Listener) :
  (forall h, forallb P (invoke h payload) = true) ->
  forallb P (flat_map (fun x : Listener =>
                         let '(j, key, h) := x in
                         if Nat.eqb j i && JS.eqb key name then invoke h payload else [])
                      l) = true.
Proof.
  intros HP. induction l as [|[[j key] h] l IH]; [reflexivity|].
  simpl. rewrite forallb_app, IH, andb_true_r.
  destruct (Nat.eqb j i && JS.eqb key name); [apply HP|reflexivity].
Qed.



Lemma keydown_calls (inst : option Inst) (key : jsstring) (st : Input) :
  forallb (fun c => negb (touches_registry c) && negb (touches_buffer c))
          (snd (handleCommandKeyDown inst key st)) = true.
Proof.
  unfold handleCommandKeyDown.
  destruct (JS.eqb key (str "ArrowUp")), (JS.eqb key (str "ArrowDown")),
    (JS.eqb key (str "Enter")); cbv zeta; cbn [andb];
  try match goal with
      | |- context [if ?b then _ else _] => destruct b
      end; destruct inst; reflexivity.
Qed.

(** ** The [listeners] object *)

Lemma forEach_key_listeners (f : jsstring -> Handler -> Call) (r : nat) :
  forEach_key f (listeners r) = List.map (fun kh => f (fst kh) (snd kh)) (listeners r).
Proof. reflexivity. Qed.

Lemma recognized_NoDup : NoDup recognized.
Proof.
  repeat constructor; simpl; intuition discriminate.
Qed.

Lemma kind_eqb_eq (a b : HandlerKind) : kind_eqb a b = true <-> a = b.
Proof. destruct a, b; simpl; split; intro; congruence. Qed.

Lemma listener_eqb_eq (x y : Listener) : listener_eqb x y = true <-> x = y.
Proof.
  destruct x as [[i k] [r a]], y as [[j l] [q b]]. unfold listener_eqb, handler_eqb.
  simpl. rewrite !andb_true_iff, !Nat.eqb_eq, eqb_eq, kind_eqb_eq.
  split; [intros [[-> ->] [-> ->]]; reflexivity|].
  intro E; injection E; auto.
Qed.

Lemma registered_NoDup (r : nat) (i : Inst) : NoDup (registered r i).
Proof.
  unfold registered, listeners.
  repeat constructor; simpl; intuition discriminate.
Qed.

Lemma remove_first_skip (x : Listener) (l1 l2 : list Listener) :
  ~ In x l1 -> remove_first x (l1 ++ x :: l2) = l1 ++ l2.
Proof.
  induction l1 as [|y l1 IH]; simpl; intro Hn.
  - now rewrite (proj2 (listener_eqb_eq x x) eq_refl).
  - destruct (listener_eqb x y) eqn:E.
    + apply listener_eqb_eq in E. subst. tauto.
    + rewrite IH by tauto. reflexivity.
Qed.

Lemma remove_last_skip (x : Listener) (l1 l2 : list Listener) :
  ~ In x l2 -> remove_last x (l1 ++ x :: l2) = l1 ++ l2.
Proof.
  intro Hn. unfold remove_last.
  rewrite rev_app_distr. simpl. rewrite <- app_assoc. simpl.
  rewrite remove_first_skip by (now rewrite <- in_rev).
  now rewrite rev_app_distr, !rev_involutive.
Qed.

(** Removing, one by one, listeners that were appended gives back what
    was there before. *)
Lemma remove_appended (xs pre : list Listener) :
  NoDup xs -> fold_left (fun acc x => remove_last x acc) xs (pre ++ xs) = pre.
Proof.
  induction xs as [|x xs IH]; intro Hnd; simpl.
  - apply app_nil_r.
  - inversion_clear Hnd as [|? ? Hx Hxs].
    rewrite remove_last_skip by assumption. now apply IH.
Qed.


Lemma run_add_listeners (i : Inst) (o : Obj Handler) (w : World) :
  run (List.map (fun kh => AddListener i (fst kh) (snd kh)) o) w =
  {| buffer := buffer w;
     registry := registry w ++ List.map (fun kh => (i, fst kh, snd kh)) o;
     outbox := outbox w |}.
Proof.
  revert w; induction o as [|kh o IH]; intro w.
  - simpl. rewrite app_nil_r. now destruct w.
  - change (run (List.map _ (kh :: o)) w)
      with (run (List.map (fun kh => AddListener i (fst kh) (snd kh)) o)
                (exec w (AddListener i (fst kh) (snd kh)))).
    rewrite IH. simpl. now rewrite <- app_assoc.
Qed.

Lemma run_remove_listeners (i : Inst) (o : Obj Handler) (w : World) :
  run (List.map (fun kh => RemoveListener i (fst kh) (snd kh)) o) w =
  {| buffer := buffer w;
     registry := fold_left (fun acc x => remove_last x acc)
                           (List.map (fun kh => (i, fst kh, snd kh)) o) (registry w);
     outbox := outbox w |}.
Proof.
  revert w; induction o as [|kh o IH]; intro w.
  - now destruct w.
  - change (run (List.map _ (kh :: o)) w)
      with (run (List.map (fun kh => RemoveListener i (fst kh) (snd kh)) o)
                (exec w (RemoveListener i (fst kh) (snd kh)))).
    rewrite IH. reflexivity.
Qed.

(** ** The effect and its clean-up on the collaborators *)

Lemma effect_on (r : nat) (p : Props) (i : Inst) :
  connected p = true -> instance p = Some i ->
  effect r p =
  (if isTransferring p then [] else [TermClear])
  ++ List.map (fun kh => AddListener i (fst kh) (snd kh)) (listeners r)
  ++ [Send i SocketRequest.SEND_LOGS None].
Proof.
  intros Hc Hi. unfold effect. rewrite Hc, Hi, forEach_key_listeners.
  now destruct (isTransferring p).
Qed.

Lemma effect_off (r : nat) (p : Props) : joint p = false -> effect r p = [].
Proof.
  unfold joint, effect. destruct (connected p), (instance p); simpl; congruence.
Qed.

Lemma run_effect (r : nat) (p : Props) (i : Inst) (w : World) :
  connected p = true -> instance p = Some i ->
  run (effect r p) w =
  {| buffer := if isTransferring p then buffer w else [];
     registry := registry w ++ registered r i;
     outbox := outbox w ++ [(i, SocketRequest.SEND_LOGS, None)] |}.
Proof.
  intros Hc Hi. rewrite (effect_on r p i Hc Hi), !run_app, run_add_listeners.
  destruct (isTransferring p); reflexivity.
Qed.

Lemma run_cleanup (r : nat) (p : Props) (w : World) :
  run (cleanup r p) w =
  {| buffer := buffer w;
     registry := match instance p with
                 | Some i => fold_left (fun acc x => remove_last x acc)
                                       (registered r i) (registry w)
                 | None => registry w
                 end;
     outbox := outbox w |}.
Proof.
  unfold cleanup. destruct (instance p) as [i|].
  - now rewrite forEach_key_listeners, run_remove_listeners.
  - now destruct w.
Qed.


Lemma deps_eqb_joint (p q : Props) : deps_eqb p q = true -> joint p = joint q.
Proof.
  unfold deps_eqb, joint. intro E. apply andb_true_iff in E as [Ec Ei].
  apply Bool.eqb_prop in Ec. rewrite Ec.
  destruct (instance p), (instance q); congruence.
Qed.









(** ** Buffer policy on (re)connect *)

Lemma render_buffer (s : Console) (p : Props) :
  effect_due (component s) p = true ->
  buffer (world (step s (Render p))) =
  buffer (run (effect (next_render (component s)) p) (world s)).
Proof.
  destruct s as [[n mo] inp w]. unfold effect_due. simpl. intro Hdue.
  unfold render. simpl. destruct mo as [m|]; simpl; [|reflexivity].
  apply negb_true_iff in Hdue. rewrite Hdue. simpl.
  rewrite run_app, run_cleanup.
  destruct (connected p) eqn:Hc; [destruct (instance p) as [i|] eqn:Hi|].
  - now rewrite !(run_effect _ p i _ Hc Hi).
  - rewrite effect_off; [reflexivity|]. unfold joint. now rewrite Hc, Hi.
  - rewrite effect_off; [reflexivity|]. unfold joint. now rewrite Hc.
Qed.

(** C2: on every render that enters the state "connected and instance
    present" (the component was not mounted, or its last render did not
    find both), the buffer is emptied when the server is not being
    transferred and is left as it was when it is. *)
Theorem reconnect_clear_policy :
  forall (s : Console) (p : Props) (i : Inst),
    inactive (component s) = true ->
    connected p = true -> instance p = Some i ->
    buffer (world (step s (Render p))) =
    if isTransferring p then buffer (world s) else [].
Proof.
  intros s p i Hin Hc Hi.
  assert (Hdue : effect_due (component s) p = true).
  { unfold effect_due, inactive in *.
    destruct (mounted (component s)) as [m|]; [|reflexivity].
    apply negb_true_iff. apply negb_true_iff in Hin.
    destruct (deps_eqb (props m) p) eqn:E; [|reflexivity].
    apply deps_eqb_joint in E. rewrite Hin in E.
    unfold joint in E. now rewrite Hc, Hi in E. }
  rewrite (render_buffer s p Hdue), (run_effect _ p i _ Hc Hi). reflexivity.
Qed.

Lemma reconnect_clear_policy_witness :
  let lost := {| connected := false; instance := Some 1; isTransferring := false |} in
  let s := {| component :=
                {| next_render := 1;
                   mounted := Some {| props := lost; effect_render := 0;
                                      effect_props := lost |} |};
              input := {| history := []; historyIndex := (-1)%Z; value := [] |};
              world := {| buffer := [str "one"; str "two"; str "three"];
                          registry := []; outbox := [] |} |} in
  buffer (world (step s (Render {| connected := true; instance := Some 1;
                                   isTransferring := true |})))
  = [str "one"; str "two"; str "three"] /\
  buffer (world (step s (Render {| connected := true; instance := Some 1;
                                   isTransferring := false |}))) = [].
Proof.
  intros lost s. split.
  - apply (reconnect_clear_policy s
             {| connected := true; instance := Some 1; isTransferring := true |} 1);
      reflexivity.
  - apply (reconnect_clear_policy s
             {| connected := true; instance := Some 1; isTransferring := false |} 1);
      reflexivity.
Defined.

(** ** Order of the side effects of an activation *)

Lemma emit_registered (r : nat) (i : Inst) (name payload : jsstring) (w : World) :
  registry w = registered r i ->
  emit i name payload w =
  run (flat_map (fun kh : jsstring * Handler =>
                   if JS.eqb (fst kh) name then invoke (snd kh) payload else [])
                (listeners r)) w.
Proof.
  intro Hreg. unfold emit. rewrite Hreg. f_equal. unfold registered.
  induction (listeners r) as [|[k h] o IH]; [reflexivity|].
  simpl. rewrite Nat.eqb_refl, IH. reflexivity.
Qed.

Lemma render_calls (c : Component) (p : Props) :
  effect_due c p = true ->
  snd (render p c) =
  match mounted c with
  | Some m => cleanup (effect_render m) (effect_props m)
  | None => []
  end ++ effect (next_render c) p.
Proof.
  unfold effect_due, render. destruct (mounted c) as [m|]; [|reflexivity].
  intro Hdue. apply negb_true_iff in Hdue. now rewrite Hdue.
Qed.

(** C9: the calls of an activation come in this order: the clear of the
    buffer, made exactly when the server is not being transferred; then
    the registration of the handlers, one after the other; then the
    request to replay the logs, last.  On a render these calls follow the
    clean-up of the previous effect run.  A console line that the replay
    brings in therefore lands after the kept buffer, or in the emptied
    one. *)
Theorem activation_order :
  forall (r : nat) (p : Props) (i : Inst),
    connected p = true -> instance p = Some i ->
    effect r p =
    (if isTransferring p then [] else [TermClear])
    ++ List.map (fun kh => AddListener i (fst kh) (snd kh)) (listeners r)
    ++ [Send i SocketRequest.SEND_LOGS None] /\
    (forall (c : Component),
        effect_due c p = true ->
        snd (render p c) =
        match mounted c with
        | Some m => cleanup (effect_render m) (effect_props m)
        | None => []
        end ++ effect (next_render c) p) /\
    (forall (w : World) (line : jsstring),
        registry w = [] ->
        buffer (emit i SocketEvent.CONSOLE_OUTPUT line (run (effect r p) w)) =
        (if isTransferring p then buffer w else [])
        ++ [replace_terminator line ++ SGR_RESET]).
Proof.
  intros r p i Hc Hi.
  split; [apply effect_on; assumption|].
  split; [intro c; apply render_calls|].
  intros w line Hw.
  rewrite (emit_registered r i).
  - rewrite (run_effect r p i w Hc Hi). reflexivity.
  - rewrite (run_effect r p i w Hc Hi). simpl. now rewrite Hw.
Qed.

Lemma activation_order_witness :
  effect 0 {| connected := true; instance := Some 1; isTransferring := false |} =
  [ TermClear;
    AddListener 1 SocketEvent.STATUS {| h_render := 0; h_kind := PowerChangeEvent |};
    AddListener 1 SocketEvent.CONSOLE_OUTPUT {| h_render := 0; h_kind := ConsoleOutput |};
    AddListener 1 SocketEvent.INSTALL_OUTPUT {| h_render := 0; h_kind := ConsoleOutput |};
    AddListener 1 SocketEvent.TRANSFER_LOGS {| h_render := 0; h_kind := ConsoleOutput |};
    AddListener 1 SocketEvent.TRANSFER_STATUS {| h_render := 0; h_kind := TransferStatus |};
    AddListener 1 SocketEvent.DAEMON_MESSAGE {| h_render := 0; h_kind := DaemonMessage |};
    AddListener 1 SocketEvent.DAEMON_ERROR {| h_render := 0; h_kind := DaemonErrorOutput |};
    Send 1 SocketRequest.SEND_LOGS None ].
Proof.
  apply (proj1 (activation_order 0
                  {| connected := true; instance := Some 1; isTransferring := false |}
                  1 eq_refl eq_refl)).
Defined.

(** ** Transfer status *)

(** C7: the transfer-status handler appends the failure notice, prelude
    first and reset last, exactly when the payload is "failure"; the
    archive notice, likewise, exactly when it is "archive"; and for every
    other payload, "bogus" among them, it makes no call at all, so the
    buffer, and the rest of the state, stay as they were. *)
Theorem transfer_status_rendering :
  forall (status : jsstring) (r : nat) (i : Inst) (b : list jsstring)
         (o : list Request),
    let w := {| buffer := b; registry := registered r i; outbox := o |} in
    let failure_notice := TERMINAL_PRELUDE ++ str "Transfer has failed." ++ SGR_RESET in
    let archive_notice :=
      TERMINAL_PRELUDE
      ++ str "Server has been archived successfully, attempting connection to target node.."
      ++ SGR_RESET in
    emit i SocketEvent.TRANSFER_STATUS status w = run (handleTransferStatus status) w /\
    ((status = str "failure" /\
      handleTransferStatus status = [TermWriteln failure_notice] /\
      buffer (emit i SocketEvent.TRANSFER_STATUS status w) = b ++ [failure_notice]) \/
     (status = str "archive" /\
      handleTransferStatus status = [TermWriteln archive_notice] /\
      buffer (emit i SocketEvent.TRANSFER_STATUS status w) = b ++ [archive_notice]) \/
     (status <> str "failure" /\ status <> str "archive" /\
      handleTransferStatus status = [] /\
      emit i SocketEvent.TRANSFER_STATUS status w = w)) /\
    handleTransferStatus (str "bogus") = [] /\
    emit i SocketEvent.TRANSFER_STATUS (str "bogus") w = w.
Proof.
  intros status r i b o w failure_notice archive_notice.
  assert (Hemit : forall st, emit i SocketEvent.TRANSFER_STATUS st w =
                             run (handleTransferStatus st) w).
  { intro st. rewrite (emit_registered r i) by reflexivity.
    simpl. now rewrite app_nil_r. }
  split; [apply Hemit|]. split; [|split; [reflexivity|now rewrite Hemit]].
  rewrite Hemit. unfold handleTransferStatus.
  destruct (JS.eqb status (str "failure")) eqn:Ef.
  - left. split; [now apply eqb_eq|split; reflexivity].
  - destruct (JS.eqb status (str "archive")) eqn:Ea.
    + right; left. split; [now apply eqb_eq|split; reflexivity].
    + right; right. apply eqb_neq in Ef, Ea.
      split; [exact Ef|split; [exact Ea|split; reflexivity]].
Qed.

(** ** Reset marker *)

Lemma effect_closes_style (r : nat) (p : Props) :
  forallb closes_style (effect r p) = true.
Proof.
  unfold effect.
  destruct (connected p), (instance p), (isTransferring p); reflexivity.
Qed.

Lemma cleanup_closes_style (r : nat) (p : Props) :
  forallb closes_style (cleanup r p) = true.
Proof. unfold cleanup. destruct (instance p); reflexivity. Qed.

Lemma step_closes_style (s : Console) (e : Event) :
  forallb (fun line => endsWith line SGR_RESET) (buffer (world s)) = true ->
  forallb (fun line => endsWith line SGR_RESET) (buffer (world (step s e))) = true.
Proof.
  destruct s as [[n mo] inp w]. simpl. intro Hb.
  destruct e as [p| |i name payload|text|key]; simpl.
  - unfold render. simpl. destruct mo as [m|]; simpl.
    + destruct (deps_eqb (props m) p); simpl; [exact Hb|].
      apply run_closes_style; [|exact Hb].
      now rewrite forallb_app, cleanup_closes_style, effect_closes_style.
    + apply run_closes_style; [apply effect_closes_style|exact Hb].
  - unfold unmount. simpl. destruct mo as [m|]; simpl; [|exact Hb].
    apply run_closes_style; [apply cleanup_closes_style|exact Hb].
  - unfold emit. apply run_closes_style; [|exact Hb].
    apply emit_calls_forallb. intro h. apply invoke_closes_style.
  - now destruct mo.
  - destruct mo as [m|]; [|exact Hb].
    pose proof (keydown_calls (instance (props m)) key inp) as Hk.
    destruct (handleCommandKeyDown (instance (props m)) key inp) as [inp' calls].
    simpl in *. rewrite run_buffer; [exact Hb|].
    rewrite forallb_forall in *. intros c Hc.
    specialize (Hk c Hc). now apply andb_true_iff in Hk as [_ Hk].
Qed.

Lemma steps_closes_style (es : list Event) (s : Console) :
  forallb (fun line => endsWith line SGR_RESET) (buffer (world s)) = true ->
  forallb (fun line => endsWith line SGR_RESET) (buffer (world (steps es s))) = true.
Proof.
  revert s; induction es as [|e es IH]; intros s Hs; [assumption|].
  apply (IH (step s e)). now apply step_closes_style.
Qed.

(** C8: every line a handler writes ends with the reset marker, which
    thus comes last on the line, before the terminator that [writeln]
    adds; so does every line of the buffer in every state the console
    reaches.  The daemon-error payload "boom\n" is written as the
    prelude, the bold and red-background markers, "boom" without its
    terminator, and the reset marker. *)
Theorem rendered_lines_close_style :
  (forall (h : Handler) (payload : jsstring),
      forallb closes_style (invoke h payload) = true) /\
  (forall (es : list Event),
      forallb (fun line => endsWith line SGR_RESET)
              (buffer (world (steps es initial))) = true) /\
  handleDaemonErrorOutput (str "boom" ++ [LF]) =
  [TermWriteln (TERMINAL_PRELUDE ++ (ESC :: str "[1m" ++ ESC :: str "[41m")
                ++ str "boom" ++ SGR_RESET)].
Proof.
  split; [exact invoke_closes_style|].
  split; [|reflexivity].
  intro es. apply steps_closes_style. reflexivity.
Qed.

(** * Further properties of the component *)

(** ** Keys the handler does not know, and what no key ever touches *)

(** X1: a key other than ArrowUp, ArrowDown and Enter leaves the history,
    the cursor and the input field as they are and makes no call. *)
Theorem other_keys_ignored :
  forall (inst : option Inst) (key : jsstring) (st : Input),
    key <> str "ArrowUp" -> key <> str "ArrowDown" -> key <> str "Enter" ->
    handleCommandKeyDown inst key st = (st, []).
Proof.
  intros inst key st Hu Hd He. unfold handleCommandKeyDown.
  apply eqb_neq in Hu, Hd, He. rewrite Hu, Hd, He. simpl.
  now destruct st.
Qed.

Lemma other_keys_ignored_witness :
  handleCommandKeyDown (Some 2) (str "a")
    {| history := [str "help"]; historyIndex := 0%Z; value := str "he" |} =
  ({| history := [str "help"]; historyIndex := 0%Z; value := str "he" |}, []).
Proof.
  apply (other_keys_ignored (Some 2) (str "a")); discriminate.
Defined.

(** X2: whatever the key, the state and the instance, the handler leaves
    the terminal buffer and the registered listeners alone, and what it
    adds to the requests sent is nothing or one "send command". *)
Theorem keydown_frame :
  forall (inst : option Inst) (key : jsstring) (st : Input) (w : World),
    let w' := run (snd (handleCommandKeyDown inst key st)) w in
    buffer w' = buffer w /\
    registry w' = registry w /\
    (outbox w' = outbox w \/
     exists i command,
       inst = Some i /\ command <> [] /\
       outbox w' = outbox w ++ [(i, str "send command", Some command)]).
Proof.
  intros inst key st w w'. unfold w'.
  pose proof (keydown_calls inst key st) as Hk.
  split; [|split].
  - apply run_buffer. rewrite forallb_forall in *. intros c Hc.
    specialize (Hk c Hc). now apply andb_true_iff in Hk as [_ Hk].
  - apply run_registry. rewrite forallb_forall in *. intros c Hc.
    specialize (Hk c Hc). now apply andb_true_iff in Hk as [Hk _].
  - clear Hk. unfold handleCommandKeyDown.
    destruct (JS.eqb key (str "ArrowUp")), (JS.eqb key (str "ArrowDown")),
      (JS.eqb key (str "Enter")); cbv zeta; cbn [andb];
    try (left; reflexivity);
    match goal with
    | |- context [if (0 <? Z.of_nat (length ?c))%Z then _ else _] =>
        destruct c as [|x c'] eqn:Ec; cbn [length Z.of_nat Z.ltb Z.compare];
        [left; reflexivity|]
    end;
    (destruct inst as [i|]; [right; exists i; eexists; split; [reflexivity|];
                             split; [|reflexivity]; discriminate
                            |left; reflexivity]).
Qed.

(** ** Arrow keys *)

Local Open Scope Z_scope.

(** X3: the arrow keys discard what was typed: ArrowDown at cursor -1
    empties the input field, and so does ArrowUp when the history is
    empty; the cursor stays at -1. *)
Theorem arrows_discard_draft :
  forall (inst : option Inst) (st : Input),
    historyIndex st = -1 ->
    press inst st (str "ArrowDown") =
    {| history := history st; historyIndex := -1; value := [] |} /\
    (history st = [] ->
     press inst st (str "ArrowUp") =
     {| history := []; historyIndex := -1; value := [] |}).
Proof.
  intros inst st Hi. unfold press. rewrite keydown_down, keydown_up, Hi. simpl.
  split; [reflexivity|]. intros ->. reflexivity.
Qed.

Lemma arrows_discard_draft_witness :
  press None {| history := [str "help"]; historyIndex := -1; value := str "dra" |}
        (str "ArrowDown") =
  {| history := [str "help"]; historyIndex := -1; value := [] |} /\
  press None {| history := []; historyIndex := -1; value := str "dra" |}
        (str "ArrowUp") =
  {| history := []; historyIndex := -1; value := [] |}.
Proof.
  split.
  - apply (proj1 (arrows_discard_draft None
       {| history := [str "help"]; historyIndex := -1; value := str "dra" |} eq_refl)).
  - apply (proj2 (arrows_discard_draft None
       {| history := []; historyIndex := -1; value := str "dra" |} eq_refl)).
    reflexivity.
Defined.

Lemma press_ups_index (inst : option Inst) (H : list jsstring) (v0 : jsstring) (k : nat) :
  let st := press_arrows inst (repeat Up k)
              {| history := H; historyIndex := -1; value := v0 |} in
  history st = H /\
  historyIndex st = Z.min (Z.of_nat k) (Z.of_nat (length H)) - 1 /\
  (0 < k -> value st = or_empty (JS.index H (historyIndex st)))%nat.
Proof.
  induction k as [|k IH].
  - simpl. repeat split; [lia|]. intro; lia.
  - cbv zeta in *. change (repeat Up (S k)) with (Up :: repeat Up k).
    rewrite repeat_cons, press_arrows_snoc.
    destruct IH as [IHh [IHi _]].
    destruct (press_arrow_spec inst Up
                (press_arrows inst (repeat Up k)
                   {| history := H; historyIndex := -1; value := v0 |}))
      as [Hh [Hi Hv]].
    rewrite IHh in *. rewrite IHi in Hi.
    split; [assumption|]. split; [rewrite Hi; lia|].
    intros _. exact Hv.
Qed.

(** X4: from cursor -1, ArrowUp pressed k times (k at least 1) on a
    history of N entries puts the cursor at min(k, N) - 1; when k is at
    most N the input field then holds the k-th most recent command. *)
Theorem up_recalls_kth :
  forall (inst : option Inst) (H : list jsstring) (v0 : jsstring) (k : nat),
    (1 <= k)%nat ->
    let st := press_arrows inst (repeat Up k)
                {| history := H; historyIndex := -1; value := v0 |} in
    historyIndex st = Z.min (Z.of_nat k) (Z.of_nat (length H)) - 1 /\
    ((k <= length H)%nat -> nth_error H (k - 1) = Some (value st)).
Proof.
  intros inst H v0 k Hk st.
  destruct (press_ups_index inst H v0 k) as [_ [Hi Hv]]. fold st in Hi, Hv.
  split; [exact Hi|]. intro Hle.
  rewrite (Hv ltac:(lia)), Hi.
  replace (Z.min (Z.of_nat k) (Z.of_nat (length H)) - 1) with (Z.of_nat (k - 1)) by lia.
  unfold JS.index.
  destruct (Z.of_nat (k - 1) <? 0) eqn:E; [apply Z.ltb_lt in E; lia|].
  rewrite Nat2Z.id.
  destruct (nth_error H (k - 1)) as [x|] eqn:Hn.
  - now rewrite or_empty_some.
  - apply nth_error_None in Hn. lia.
Qed.

Lemma up_recalls_kth_witness :
  nth_error [str "c"; str "b"; str "a"] 1 =
  Some (value (press_arrows None (repeat Up 2)
                 {| history := [str "c"; str "b"; str "a"]; historyIndex := -1;
                    value := str "x" |})).
Proof.
  apply (proj2 (up_recalls_kth None [str "c"; str "b"; str "a"] (str "x") 2
                  ltac:(repeat constructor))).
  repeat constructor.
Defined.

(** X5: ArrowDown undoes ArrowUp unless the cursor was already on the
    oldest entry, and ArrowUp undoes ArrowDown unless the cursor was at
    -1: the cursor is back where it was and the field shows the entry
    under it (nothing at -1). *)
Theorem up_down_inverse :
  forall (inst : option Inst) (st : Input),
    let N := Z.of_nat (length (history st)) in
    (-1 <= historyIndex st < N - 1 ->
     press inst (press inst st (str "ArrowUp")) (str "ArrowDown") =
     {| history := history st; historyIndex := historyIndex st;
        value := or_empty (JS.index (history st) (historyIndex st)) |}) /\
    (0 <= historyIndex st <= N - 1 ->
     press inst (press inst st (str "ArrowDown")) (str "ArrowUp") =
     {| history := history st; historyIndex := historyIndex st;
        value := or_empty (JS.index (history st) (historyIndex st)) |}).
Proof.
  intros inst st N. unfold press.
  split; intro Hr.
  - rewrite keydown_up. cbn [fst]. rewrite keydown_down. cbn [fst history historyIndex].
    replace (Z.max (Z.min (historyIndex st + 1) (Z.of_nat (length (history st)) - 1) - 1) (-1))
      with (historyIndex st) by (unfold N in Hr; lia).
    reflexivity.
  - rewrite keydown_down. cbn [fst]. rewrite keydown_up. cbn [fst history historyIndex].
    replace (Z.min (Z.max (historyIndex st - 1) (-1) + 1) (Z.of_nat (length (history st)) - 1))
      with (historyIndex st) by (unfold N in Hr; lia).
    reflexivity.
Qed.

Lemma up_down_inverse_witness :
  press None (press None {| history := [str "b"; str "a"]; historyIndex := 0;
                            value := str "b" |} (str "ArrowUp")) (str "ArrowDown") =
  {| history := [str "b"; str "a"]; historyIndex := 0; value := str "b" |} /\
  press None (press None {| history := [str "b"; str "a"]; historyIndex := 1;
                            value := str "a" |} (str "ArrowDown")) (str "ArrowUp") =
  {| history := [str "b"; str "a"]; historyIndex := 1; value := str "a" |}.
Proof.
  split.
  - apply (proj1 (up_down_inverse None
       {| history := [str "b"; str "a"]; historyIndex := 0; value := str "b" |})).
    simpl. lia.
  - apply (proj2 (up_down_inverse None
       {| history := [str "b"; str "a"]; historyIndex := 1; value := str "a" |})).
    simpl. lia.
Defined.

(** X6: recalling the most recent command with ArrowUp and pressing Enter
    sends it again and puts it in front of the history a second time:
    the history keeps duplicates. *)
Theorem recall_and_resubmit :
  forall (i : Inst) (h0 : jsstring) (rest : list jsstring) (v0 : jsstring),
    h0 <> [] ->
    let st := {| history := h0 :: rest; historyIndex := -1; value := v0 |} in
    handleCommandKeyDown (Some i) (str "Enter") (press (Some i) st (str "ArrowUp")) =
    ({| history := firstn 32 (h0 :: h0 :: rest); historyIndex := -1; value := [] |},
     [Send i (str "send command") (Some h0)]).
Proof.
  intros i h0 rest v0 Hne st. unfold press, st.
  rewrite keydown_up. cbn [fst history historyIndex].
  replace (Z.min (-1 + 1) (Z.of_nat (length (h0 :: rest)) - 1)) with 0
    by (cbn [length]; lia).
  cbv zeta. cbn [JS.index Z.ltb Z.compare Z.to_nat nth_error].
  rewrite or_empty_some, keydown_enter. cbn [value history].
  destruct h0; [contradiction|reflexivity].
Qed.

Lemma recall_and_resubmit_witness :
  handleCommandKeyDown (Some 1%nat) (str "Enter")
    (press (Some 1%nat) {| history := [str "ls"]; historyIndex := -1; value := [] |}
           (str "ArrowUp")) =
  ({| history := [str "ls"; str "ls"]; historyIndex := -1; value := [] |},
   [Send 1%nat (str "send command") (Some (str "ls"))]).
Proof.
  apply (recall_and_resubmit 1%nat (str "ls") [] []). discriminate.
Defined.

Local Close Scope Z_scope.

(** ** Invariants of the input state *)

Lemma Forall_firstn {A : Type} (P : A -> Prop) (n : nat) (l : list A) :
  Forall P l -> Forall P (firstn n l).
Proof.
  intro Hl. rewrite <- (firstn_skipn n l) in Hl.
  now apply Forall_app in Hl as [Hf _].
Qed.

(** What one run of the handler can do to the history and the requests:
    keep the history and send nothing, or put a non-empty command in
    front and send it if there is an instance. *)
Lemma keydown_shape (inst : option Inst) (key : jsstring) (st : Input) :
  let N := Z.of_nat (length (history st)) in
  let r := handleCommandKeyDown inst key st in
  (history (fst r) = history st /\ requests (snd r) = [] /\
   (historyIndex (fst r) = historyIndex st \/
    historyIndex (fst r) = Z.min (historyIndex st + 1) (N - 1) \/
    historyIndex (fst r) = Z.max (historyIndex st - 1) (-1))%Z) \/
  (exists command,
      command <> [] /\
      fst r = {| history := firstn 32 (command :: history st);
                 historyIndex := (-1)%Z; value := [] |} /\
      requests (snd r) = match inst with
                         | Some i => [(i, str "send command", Some command)]
                         | None => []
                         end).
Proof.
  cbv zeta. unfold handleCommandKeyDown.
  destruct (JS.eqb key (str "ArrowUp")), (JS.eqb key (str "ArrowDown")),
    (JS.eqb key (str "Enter")); cbv zeta; cbn [andb];
  try (left; cbn [fst snd history historyIndex requests flat_map];
       repeat split; auto; fail);
  match goal with
  | |- context [if (0 <? Z.of_nat (length ?c))%Z then _ else _] =>
      destruct c as [|x c'] eqn:Ec; cbn [length Z.of_nat Z.ltb Z.compare]
  end;
  try (left; cbn [fst snd history historyIndex requests flat_map];
       repeat split; auto; fail);
  right; eexists; (split; [|split; [reflexivity|]]); try discriminate;
  destruct inst; reflexivity.
Qed.

Lemma keydown_input_invariant (inst : option Inst) (key : jsstring) (st : Input) :
  (-1 <= historyIndex st <= Z.of_nat (length (history st)) - 1)%Z ->
  Forall (fun c => c <> []) (history st) ->
  let st' := fst (handleCommandKeyDown inst key st) in
  (-1 <= historyIndex st' <= Z.of_nat (length (history st')) - 1)%Z /\
  Forall (fun c => c <> []) (history st').
Proof.
  intros Hr Hne st'. unfold st'.
  destruct (keydown_shape inst key st) as [[Hh [_ Hi]]|[command [Hc [Hst _]]]].
  - rewrite Hh. split; [|assumption].
    destruct Hi as [Hi|[Hi|Hi]]; rewrite Hi; lia.
  - rewrite Hst. cbn [history historyIndex]. split.
    + rewrite length_firstn. cbn [length]. lia.
    + apply Forall_firstn. now constructor.
Qed.

Lemma step_input_invariant (s : Console) (e : Event) :
  (-1 <= historyIndex (input s) <= Z.of_nat (length (history (input s))) - 1)%Z ->
  Forall (fun c => c <> []) (history (input s)) ->
  (-1 <= historyIndex (input (step s e))
      <= Z.of_nat (length (history (input (step s e)))) - 1)%Z /\
  Forall (fun c => c <> []) (history (input (step s e))).
Proof.
  destruct s as [[n mo] inp w]. cbn [input]. intros Hr Hne.
  destruct e as [p| |i name payload|text|key]; cbn [step component input].
  - destruct (render p {| next_render := n; mounted := mo |}) as [c calls].
    cbn [input mounted]. destruct mo; cbn [history historyIndex]; split; auto; lia.
  - destruct (unmount {| next_render := n; mounted := mo |}) as [c calls].
    cbn [input]. auto.
  - auto.
  - cbn [mounted]. destruct mo; cbn [input history historyIndex]; auto.
  - cbn [mounted]. destruct mo as [m|]; [|cbn [input]; auto].
    pose proof (keydown_input_invariant (instance (props m)) key inp Hr Hne) as Hk.
    destruct (handleCommandKeyDown (instance (props m)) key inp) as [inp' calls].
    exact Hk.
Qed.

(** X7: in every state the console reaches from its initial state, by
    renders, unmounts, socket events, typing and key presses in any
    order, the cursor is between -1 and the last index of the history,
    and no entry of the history is the empty string. *)
Theorem input_invariant :
  forall (es : list Event),
    let st := input (steps es initial) in
    (-1 <= historyIndex st <= Z.of_nat (length (history st)) - 1)%Z /\
    Forall (fun c => c <> []) (history st).
Proof.
  intros es. cbv zeta. unfold steps.
  assert (Hgen : forall s,
             (-1 <= historyIndex (input s)
                 <= Z.of_nat (length (history (input s))) - 1)%Z /\
             Forall (fun c => c <> []) (history (input s)) ->
             (-1 <= historyIndex (input (fold_left step es s))
                 <= Z.of_nat (length (history (input (fold_left step es s)))) - 1)%Z /\
             Forall (fun c => c <> []) (history (input (fold_left step es s)))).
  { induction es as [|e es IH]; intros s Hs; [exact Hs|].
    apply (IH (step s e)). destruct Hs as [Hr Hne].
    now apply step_input_invariant. }
  apply Hgen. simpl. split; [lia|constructor].
Qed.

(** ** The input gate and the requests sent *)

Lemma run_outbox (cs : list Call) (w : World) :
  outbox (run cs w) = outbox w ++ requests cs.
Proof.
  revert w; induction cs as [|c cs IH]; intro w.
  - simpl. now rewrite app_nil_r.
  - change (run (c :: cs) w) with (run cs (exec w c)).
    rewrite IH. destruct c; simpl; rewrite <- ?app_assoc; reflexivity.
Qed.

Lemma sent_commands_app (a b : list Request) :
  sent_commands (a ++ b) = sent_commands a ++ sent_commands b.
Proof. unfold sent_commands. apply flat_map_app. Qed.

Lemma requests_app (a b : list Call) : requests (a ++ b) = requests a ++ requests b.
Proof. unfold requests. apply flat_map_app. Qed.

Lemma effect_sends_no_command (r : nat) (p : Props) :
  sent_commands (requests (effect r p)) = [].
Proof.
  unfold effect.
  destruct (connected p), (instance p), (isTransferring p); reflexivity.
Qed.

Lemma cleanup_sends_nothing (r : nat) (p : Props) : requests (cleanup r p) = [].
Proof. unfold cleanup. destruct (instance p); reflexivity. Qed.

Lemma invoke_sends_nothing (h : Handler) (payload : jsstring) :
  requests (invoke h payload) = [].
Proof.
  unfold invoke, handleConsoleOutput, handleTransferStatus, handleDaemonErrorOutput,
    handlePowerChangeEvent.
  destruct (h_kind h); try reflexivity.
  destruct (JS.eqb _ _); [reflexivity|]. destruct (JS.eqb _ _); reflexivity.
Qed.

Lemma emit_outbox (i : Inst) (name payload : jsstring) (w : World) :
  outbox (emit i name payload w) = outbox w.
Proof.
  unfold emit. rewrite run_outbox.
  induction (registry w) as [|[[j key] h] l IH]; simpl; [apply app_nil_r|].
  rewrite requests_app.
  destruct (Nat.eqb j i && JS.eqb key name); [rewrite invoke_sends_nothing|]; exact IH.
Qed.

Lemma input_enabled_instance (href : jsstring) (can : bool) (p : Props) :
  input_enabled (consoleView href can p) = true ->
  can = true /\ connected p = true /\ exists i, instance p = Some i.
Proof.
  unfold input_enabled, consoleView, commandInputDisabled. simpl.
  destruct can; simpl; [|discriminate].
  destruct (instance p) as [i|], (connected p); simpl; try discriminate.
  intros _. repeat split. now exists i.
Qed.

Lemma ui_step_mirror (href : jsstring) (s : Console) (ce : bool * Event) :
  history (input s) = firstn 32 (rev (sent_commands (outbox (world s)))) ->
  history (input (ui_step href s ce)) =
  firstn 32 (rev (sent_commands (outbox (world (ui_step href s ce))))).
Proof.
  destruct s as [[n mo] inp w]. destruct ce as [can e]. intro Hm.
  cbn [input world] in Hm.
  destruct e as [p| |i name payload|text|key]; cbn [ui_step step component mounted].
  - unfold render. cbn [next_render mounted].
    destruct mo as [m|]; [destruct (deps_eqb (props m) p)|];
      cbn [input world history]; rewrite ?run_outbox, ?requests_app,
        ?sent_commands_app, ?cleanup_sends_nothing, ?effect_sends_no_command,
        ?app_nil_r; exact Hm.
  - unfold unmount. cbn [mounted next_render].
    destruct mo as [m|]; cbn [input world]; [|exact Hm].
    now rewrite run_outbox, cleanup_sends_nothing, app_nil_r.
  - cbn [input world]. now rewrite emit_outbox.
  - destruct mo as [m|]; [|exact Hm].
    destruct (input_enabled (consoleView href can (props m))); exact Hm.
  - destruct mo as [m|]; [|exact Hm].
    destruct (input_enabled (consoleView href can (props m))) eqn:En; [|exact Hm].
    apply input_enabled_instance in En as [_ [_ [i Hi]]].
    cbn [step component mounted input world]. rewrite Hi.
    destruct (keydown_shape (Some i) key inp) as [[Hh [Hq _]]|[command [Hc [Hst Hq]]]];
      destruct (handleCommandKeyDown (Some i) key inp) as [inp' calls];
      cbn [fst snd input world] in *; rewrite run_outbox, Hq.
    + now rewrite app_nil_r, Hh.
    + rewrite Hst, sent_commands_app, rev_app_distr. cbn [history].
      change (sent_commands [(i, str "send command", Some command)]) with [command].
      cbn [rev app]. rewrite Hm.
      exact (firstn_app_firstn 32 [command] (rev (sent_commands (outbox w)))).
Qed.

(** X8: when keys reach the handler only through the enabled command
    input (permission held, connected, instance present), then in every
    state reached from the initial one the history is the commands sent
    so far, most recent first, cut to 32: every entry of the history was
    sent, and in that order. *)
Theorem history_mirrors_sent_commands :
  forall (href : jsstring) (es : list (bool * Event)),
    let s := ui_steps href es initial in
    history (input s) = firstn 32 (rev (sent_commands (outbox (world s)))).
Proof.
  intros href es. cbv zeta. unfold ui_steps.
  assert (Hgen : forall s,
             history (input s) = firstn 32 (rev (sent_commands (outbox (world s)))) ->
             history (input (fold_left (ui_step href) es s)) =
             firstn 32 (rev (sent_commands
                               (outbox (world (fold_left (ui_step href) es s)))))).
  { induction es as [|e es IH]; intros s Hs; [exact Hs|].
    apply (IH (ui_step href s e)). now apply ui_step_mirror. }
  apply Hgen. reflexivity.
Qed.

(** ** The regular expression of the renderers *)

Lemma match_terminator_some (s rest : jsstring) :
  match_terminator s = Some rest ->
  exists term, s = term ++ rest /\ In term [[CR; LF]; [CR]; [LF]] /\
               at_line_end rest = true.
Proof.
  unfold match_terminator. destruct s as [|c tl]; [discriminate|].
  destruct tl as [|d tl'].
  - destruct (c =? CR)%N eqn:Ecr; simpl.
    + intro E; injection E as <-. apply N.eqb_eq in Ecr. subst.
      exists [CR]. simpl. intuition.
    + destruct (c =? LF)%N eqn:Elf; simpl; [|discriminate].
      intro E; injection E as <-. apply N.eqb_eq in Elf. subst.
      exists [LF]. simpl. intuition.
  - destruct ((c =? CR)%N && (d =? LF)%N && at_line_end tl') eqn:E1.
    + intro E; injection E as <-.
      apply andb_true_iff in E1 as [E1 Hend]. apply andb_true_iff in E1 as [Ec Ed].
      apply N.eqb_eq in Ec, Ed. subst. exists [CR; LF]. simpl. intuition.
    + destruct ((c =? CR)%N && at_line_end (d :: tl')) eqn:E2.
      * intro E; injection E as <-.
        apply andb_true_iff in E2 as [Ec Hend]. apply N.eqb_eq in Ec. subst.
        exists [CR]. simpl. intuition.
      * destruct ((c =? LF)%N && at_line_end (d :: tl')) eqn:E3; [|discriminate].
        intro E; injection E as <-.
        apply andb_true_iff in E3 as [Ec Hend]. apply N.eqb_eq in Ec. subst.
        exists [LF]. simpl. intuition.
Qed.

(** X9: whatever the payload, the replacement removes at most one line
    terminator (CR LF, CR or LF), one that stands at the end or directly
    before another line terminator, and keeps every other code unit in
    place: the result is never longer and at most two code units
    shorter. *)
Theorem replace_removes_one_terminator :
  forall (s : jsstring),
    exists pre term post,
      s = pre ++ term ++ post /\
      replace_terminator s = pre ++ post /\
      In term [[]; [CR; LF]; [CR]; [LF]] /\
      (term = [] \/ at_line_end post = true) /\
      length s - 2 <= length (replace_terminator s) <= length s.
Proof.
  induction s as [|c tl IH].
  - exists [], [], []. simpl. repeat split; auto.
  - cbn [replace_terminator].
    destruct (match_terminator (c :: tl)) as [rest|] eqn:Em.
    + apply match_terminator_some in Em as [term [Hs [Ht Hend]]].
      exists [], term, rest. rewrite Hs. cbn [app].
      split; [reflexivity|]. split; [reflexivity|].
      split; [simpl in *; tauto|]. split; [now right|].
      rewrite length_app.
      simpl in Ht. destruct Ht as [<-|[<-|[<-|[]]]]; simpl; lia.
    + destruct IH as [pre [term [post [Hs [Hr [Ht [Hend Hlen]]]]]]].
      exists (c :: pre), term, post. cbn [app].
      split; [now rewrite <- Hs|]. split; [now rewrite Hr|].
      split; [assumption|]. split; [assumption|].
      cbn [length]. lia.
Qed.

Lemma replace_shortens_on_match (s : jsstring) :
  (exists pre c, s = pre ++ [c] /\ (c = CR \/ c = LF)) ->
  length (replace_terminator s) < length s.
Proof.
  intros [pre [c [-> Hc]]].
  induction pre as [|x pre IH].
  - destruct Hc as [->| ->]; simpl; lia.
  - change ((x :: pre) ++ [c]) with (x :: (pre ++ [c])).
    cbn [replace_terminator].
    destruct (match_terminator (x :: pre ++ [c])) as [rest|] eqn:Em.
    + apply match_terminator_some in Em as [term [Hs [Ht _]]].
      rewrite Hs, length_app.
      simpl in Ht. destruct Ht as [<-|[<-|[<-|[]]]]; simpl; lia.
    + cbn [length]. lia.
Qed.

(** X10: a payload that ends with CR or LF always comes out shorter, and
    a payload that holds neither CR nor LF comes out unchanged, even when
    it ends with one of the line separators U+2028 and U+2029. *)
Theorem replace_terminator_edges :
  forall (s : jsstring),
    (forall pre c, s = pre ++ [c] -> c = CR \/ c = LF ->
                   length (replace_terminator s) < length s) /\
    (forallb (fun c => negb ((c =? CR)%N || (c =? LF)%N)) s = true ->
     replace_terminator s = s).
Proof.
  intro s. split.
  - intros pre c Hs Hc. apply replace_shortens_on_match. eauto.
  - induction s as [|c tl IH]; [reflexivity|].
    simpl. intro Hall. apply andb_true_iff in Hall as [Hc Htl].
    apply negb_true_iff, orb_false_iff in Hc as [Hcr Hlf].
    rewrite Hcr, Hlf. simpl. destruct tl; now rewrite IH.
Qed.

Lemma replace_terminator_edges_witness :
  length (replace_terminator (str "ok" ++ [CR])) < length (str "ok" ++ [CR]) /\
  replace_terminator (str "ok" ++ [LS]) = str "ok" ++ [LS].
Proof.
  split.
  - apply (proj1 (replace_terminator_edges (str "ok" ++ [CR])) (str "ok") CR);
      [reflexivity|now left].
  - apply (proj2 (replace_terminator_edges (str "ok" ++ [LS]))). reflexivity.
Defined.

(** X11: for a payload made of a body without line terminators followed
    by nothing or by one CR LF, CR or LF, the console, install and
    transfer-log renderer writes the body and the reset marker; the
    daemon-message renderer the prelude, the body and the reset marker;
    the daemon-error renderer the prelude, the bold and red-background
    markers, the body and the reset marker. *)
Theorem single_line_rendering :
  forall (body term : jsstring),
    forallb (fun c => negb (isLineTerminator c)) body = true ->
    In term [[]; [CR; LF]; [CR]; [LF]] ->
    handleConsoleOutput (body ++ term) false = [TermWriteln (body ++ SGR_RESET)] /\
    handleConsoleOutput (body ++ term) true =
      [TermWriteln (TERMINAL_PRELUDE ++ body ++ SGR_RESET)] /\
    handleDaemonErrorOutput (body ++ term) =
      [TermWriteln (TERMINAL_PRELUDE ++ (ESC :: str "[1m" ++ ESC :: str "[41m")
                    ++ body ++ SGR_RESET)].
Proof.
  intros body term Hb Ht.
  unfold handleConsoleOutput, handleDaemonErrorOutput.
  rewrite (replace_terminator_single_line body term Hb Ht).
  repeat split.
Qed.

Lemma single_line_rendering_witness :
  handleConsoleOutput (str "Done (3.2s)!" ++ [CR; LF]) true =
  [TermWriteln (TERMINAL_PRELUDE ++ str "Done (3.2s)!" ++ SGR_RESET)].
Proof.
  apply (proj1 (proj2 (single_line_rendering (str "Done (3.2s)!") [CR; LF]
                         eq_refl ltac:(simpl; tauto)))).
Defined.

(** ** Routing of the socket events *)





(** ** The connection effect and its clean-up *)

Lemma remove_first_absent (x : Listener) (l : list Listener) :
  ~ In x l -> remove_first x l = l.
Proof.
  induction l as [|y l IH]; simpl; intro Hn; [reflexivity|].
  destruct (listener_eqb x y) eqn:E.
  - apply listener_eqb_eq in E. subst. tauto.
  - rewrite IH by tauto. reflexivity.
Qed.

Lemma remove_last_absent (x : Listener) (l : list Listener) :
  ~ In x l -> remove_last x l = l.
Proof.
  intro Hn. unfold remove_last.
  rewrite remove_first_absent by (now rewrite <- in_rev).
  apply rev_involutive.
Qed.

Lemma remove_all_absent (xs l : list Listener) :
  Forall (fun x => ~ In x l) xs ->
  fold_left (fun acc x => remove_last x acc) xs l = l.
Proof.
  induction xs as [|x xs IH]; simpl; intro Hxs; [reflexivity|].
  inversion_clear Hxs as [|? ? Hx Hrest].
  rewrite remove_last_absent by assumption. now apply IH.
Qed.

(** X13: subscribing and then unsubscribing gives the instance back as
    it was: after the effect of an activation and its clean-up the
    registered listeners are exactly those from before, whatever they
    were; what remains of the pair is the replay request and the buffer
    policy. *)
Theorem subscribe_unsubscribe_round_trip :
  forall (r : nat) (p : Props) (i : Inst) (w : World),
    connected p = true -> instance p = Some i ->
    run (cleanup r p) (run (effect r p) w) =
    {| buffer := if isTransferring p then buffer w else [];
       registry := registry w;
       outbox := outbox w ++ [(i, SocketRequest.SEND_LOGS, None)] |}.
Proof.
  intros r p i w Hc Hi.
  rewrite (run_effect r p i w Hc Hi), run_cleanup, Hi. cbn [buffer registry outbox].
  now rewrite (remove_appended (registered r i) (registry w) (registered_NoDup r i)).
Qed.

Lemma subscribe_unsubscribe_round_trip_witness :
  let p := {| connected := true; instance := Some 4; isTransferring := true |} in
  let w := {| buffer := [str "kept"]; registry := registered 7 4; outbox := [] |} in
  run (cleanup 9 p) (run (effect 9 p) w) =
  {| buffer := [str "kept"]; registry := registered 7 4;
     outbox := [(4, SocketRequest.SEND_LOGS, None)] |}.
Proof.
  intros p w.
  apply (subscribe_unsubscribe_round_trip 9 p 4 w); reflexivity.
Defined.

(** X14: a clean-up whose effect did not subscribe is harmless: when the
    instance holds none of the listeners of that effect run, the
    clean-up leaves the buffer, the listeners and the requests as they
    are; in particular a second clean-up after the first changes
    nothing. *)
Theorem cleanup_without_subscription :
  forall (r : nat) (p : Props) (w : World),
    (forall i, instance p = Some i ->
               Forall (fun x => ~ In x (registry w)) (registered r i)) ->
    run (cleanup r p) w = w.
Proof.
  intros r p w Hnone. rewrite run_cleanup.
  destruct (instance p) as [i|]; [|now destruct w].
  rewrite remove_all_absent by (now apply Hnone). now destruct w.
Qed.

Lemma cleanup_without_subscription_witness :
  let p := {| connected := false; instance := Some 4; isTransferring := false |} in
  let w := {| buffer := [str "line"]; registry := []; outbox := [] |} in
  run (cleanup 0 p) (run (cleanup 0 p) w) = w.
Proof.
  intros p w.
  assert (H1 : run (cleanup 0 p) w = w).
  { apply (cleanup_without_subscription 0 p w).
    intros i _. apply Forall_forall. intros x _ []. }
  rewrite H1. exact H1.
Defined.

(** X15: a render in which neither [connected] nor [instance] changed
    makes no call at all: a change of [isTransferring] alone neither
    clears the buffer nor touches the listeners nor asks for a replay. *)
Theorem rerender_without_dependency_change :
  forall (s : Console) (m : Mounted) (p : Props),
    mounted (component s) = Some m ->
    connected p = connected (props m) -> instance p = instance (props m) ->
    snd (render p (component s)) = [] /\
    world (step s (Render p)) = world s /\
    input (step s (Render p)) = input s.
Proof.
  intros s m p Hm Hc Hi.
  assert (Hd : deps_eqb (props m) p = true).
  { unfold deps_eqb. rewrite Hc, Hi, Bool.eqb_reflx.
    destruct (instance (props m)); [apply Nat.eqb_refl|reflexivity]. }
  destruct s as [c inp w]. cbn [component] in Hm. cbn [step component input world].
  unfold render. rewrite Hm, Hd. cbn [snd]. repeat split.
Qed.

Lemma rerender_without_dependency_change_witness :
  let before := {| connected := true; instance := Some 1; isTransferring := true |} in
  let after := {| connected := true; instance := Some 1; isTransferring := false |} in
  let s := step (steps [Render before; Emit 1 SocketEvent.CONSOLE_OUTPUT (str "moving")]
                       initial) (Render after) in
  buffer (world s) = [str "moving" ++ SGR_RESET].
Proof.
  intros before after s.
  pose proof (rerender_without_dependency_change
                (steps [Render before; Emit 1 SocketEvent.CONSOLE_OUTPUT (str "moving")]
                       initial)
                {| props := before; effect_render := 0; effect_props := before |}
                after eq_refl eq_refl eq_refl) as [_ [Hw _]].
  unfold s. rewrite Hw. reflexivity.
Defined.

(** ** Terminal set-up *)



Lemma setup_render_invariant (t : Terminal) (c : bool) :
  (element t = false -> setup_log t = [] /\ setup_deps t <> Some true) ->
  (element t = true -> setup_log t = setup true true false) ->
  let t' := setup_render t c in
  element t' = element t || c /\
  (element t' = false -> setup_log t' = [] /\ setup_deps t' <> Some true) /\
  (element t' = true -> setup_log t' = setup true true false).
Proof.
  intros Hclosed Hopen. unfold setup_render.
  destruct (element t) eqn:He.
  - specialize (Hopen eq_refl).
    assert (Hno : forall d : bool, (if d then setup c true true else []) = []).
    { intros []; [|reflexivity]. unfold setup. now destruct c. }
    rewrite Hno. cbn [element setup_log existsb orb]. rewrite app_nil_r.
    split; [reflexivity|]. split; [discriminate|]. intros _. exact Hopen.
  - destruct (Hclosed eq_refl) as [Hlog Hdeps]. rewrite Hlog.
    destruct c.
    + assert (Hdue : match setup_deps t with
                     | Some c0 => negb (Bool.eqb c0 true)
                     | None => true
                     end = true).
      { destruct (setup_deps t) as [[]|]; [congruence|reflexivity|reflexivity]. }
      rewrite Hdue. cbn.
      split; [reflexivity|]. split; [discriminate|]. intros _. reflexivity.
    + assert (Hno : forall d : bool, (if d then setup false true false else []) = []).
      { now intros []. }
      rewrite Hno. cbn.
      split; [reflexivity|]. split; [|discriminate].
      intros _. split; [reflexivity|discriminate].
Qed.

(** X17: over any sequence of renders of a mounted component, the
    terminal is set up at most once: nothing is called before the first
    render that finds the socket connected; at that render the five
    addons are loaded, the terminal opened, fitted and given its key
    handler, in this order; and no later disconnect or reconnect loads,
    opens or attaches anything again. *)
Theorem terminal_opened_once :
  forall (cs : list bool),
    let t := setup_renders cs fresh_terminal in
    element t = existsb (fun c => c) cs /\
    setup_log t =
    (if existsb (fun c => c) cs then
       [ LoadAddon FitAddon; LoadAddon SearchAddon; LoadAddon SearchBarAddon;
         LoadAddon WebLinksAddon; LoadAddon ScrollDownHelperAddon;
         TermOpen; FitAddonFit; AttachCustomKeyEventHandler ]
     else []) /\
    length (filter is_TermOpen (setup_log t)) <= 1.
Proof.
  intro cs. cbv zeta.
  assert (Hgen : forall t,
             (element t = false -> setup_log t = [] /\ setup_deps t <> Some true) ->
             (element t = true -> setup_log t = setup true true false) ->
             let t' := setup_renders cs t in
             element t' = element t || existsb (fun c => c) cs /\
             (element t' = false -> setup_log t' = []) /\
             (element t' = true -> setup_log t' = setup true true false)).
  { induction cs as [|c cs IH]; intros t Hclosed Hopen.
    - cbv zeta. cbn [setup_renders fold_left existsb]. rewrite orb_false_r.
      split; [reflexivity|]. split; [|exact Hopen].
      intro He. now apply Hclosed.
    - destruct (setup_render_invariant t c Hclosed Hopen)
        as [He [Hclosed' Hopen']].
      destruct (IH (setup_render t c) Hclosed' Hopen') as [He2 [Hc2 Ho2]].
      change (setup_renders (c :: cs) t) with (setup_renders cs (setup_render t c)).
      cbv zeta. split; [|split; [exact Hc2|exact Ho2]].
      rewrite He2, He. cbn [existsb]. now rewrite orb_assoc. }
  destruct (Hgen fresh_terminal) as [He [Hc Ho]].
  - intros _. split; [reflexivity|discriminate].
  - discriminate.
  - cbn [fresh_terminal element orb] in He.
    destruct (existsb (fun c => c) cs).
    + rewrite (Ho He). split; [exact He|]. split; [reflexivity|].
      simpl. lia.
    + rewrite (Hc He). split; [exact He|]. split; [reflexivity|].
      simpl. lia.
Qed.

(** ** What is rendered *)

Lemma isPrefix_app (p s : jsstring) : isPrefix p (p ++ s) = true.
Proof.
  induction p as [|x p IH]; [reflexivity|].
  simpl. now rewrite N.eqb_refl, IH.
Qed.

Lemma includes_middle (pre sub post : jsstring) :
  includes (pre ++ sub ++ post) sub = true.
Proof.
  induction pre as [|x pre IH].
  - cbn [app]. destruct (sub ++ post) eqn:E; cbn [includes];
      rewrite <- E, isPrefix_app; reflexivity.
  - cbn [app includes]. rewrite IH. apply orb_true_r.
Qed.

Lemma array_includes_In (a : list jsstring) (x : jsstring) :
  array_includes a x = true <-> In x a.
Proof.
  unfold array_includes. rewrite existsb_exists. split.
  - intros [y [Hy E]]. apply eqb_eq in E. now subst.
  - intro Hx. exists x. split; [assumption|apply eqb_refl].
Qed.

Lemma In_when (c : bool) (b b' : Block) : In b (when c b') <-> c = true /\ b' = b.
Proof. destruct c; simpl; intuition discriminate. Qed.



Lemma NoDup_when (c : bool) (b : Block) : NoDup (when c b).
Proof. destruct c; repeat constructor. simpl. tauto. Qed.

Lemma NoDup_when_app (c : bool) (b : Block) (rest : list Block) :
  ~ In b rest -> NoDup rest -> NoDup (when c b ++ rest).
Proof. destruct c; simpl; [now constructor|auto]. Qed.

(** X18: the command input takes keys exactly when the permission is
    held, the socket is connected and an instance is present; while the
    spinner is shown it never does; and without the permission neither
    the input nor the pop-out button is rendered. *)
Theorem command_input_gate :
  forall (href : jsstring) (can : bool) (p : Props),
    let v := consoleView href can p in
    (input_enabled v = true <->
     can = true /\ connected p = true /\ exists i, instance p = Some i) /\
    (view_spinner v = true -> input_enabled v = false) /\
    (can = false -> view_row v = None).
Proof.
  intros href can p. cbv zeta. split; [split|split].
  - apply input_enabled_instance.
  - intros [-> [Hc [i Hi]]].
    unfold input_enabled, consoleView, commandInputDisabled. simpl.
    now rewrite Hc, Hi.
  - unfold input_enabled, consoleView, commandInputDisabled. simpl.
    destruct can, (instance p), (connected p); simpl; congruence.
  - intros ->. reflexivity.
Qed.

Lemma command_input_gate_witness :
  input_enabled (consoleView (str "/server/1a2b") true
                   {| connected := false; instance := Some 1;
                      isTransferring := false |}) = false.
Proof.
  apply (proj1 (proj2 (command_input_gate (str "/server/1a2b") true
                         {| connected := false; instance := Some 1;
                            isTransferring := false |}))).
  reflexivity.
Defined.

(** X19: a page whose address holds "/console" anywhere is laid out full
    screen: the page shows the console and nothing else, and the console
    hides its pop-out button.  The address [openConsole] opens is such
    an address, whatever the address of the page it is called from. *)
Theorem popout_is_fullscreen :
  forall (pre post : jsstring) (isInstalling isTransferring can : bool)
         (eggFeatures : list jsstring) (p : Props),
    let href := pre ++ str "/console" ++ post in
    ServerConsole href isInstalling isTransferring eggFeatures = [ChunkedConsole] /\
    view_fullscreen (consoleView href can p) = true /\
    (forall r, view_row (consoleView href can p) = Some r ->
               row_popout_hidden r = true) /\
    ServerConsole (openConsole pre) isInstalling isTransferring eggFeatures
    = [ChunkedConsole].
Proof.
  intros pre post isInstalling isTransferring can eggFeatures p href.
  assert (Hin : includes href (str "/console") = true) by apply includes_middle.
  assert (Hopen : includes (openConsole pre) (str "/console") = true).
  { unfold openConsole. rewrite <- (app_nil_r (str "/console")) at 1.
    apply includes_middle. }
  unfold ServerConsole, consoleView. cbn [view_fullscreen view_row].
  rewrite Hin, Hopen.
  split; [reflexivity|]. split; [reflexivity|]. split; [|reflexivity].
  intros r Hr. destruct can; [|discriminate]. now injection Hr as <-.
Qed.

Lemma popout_is_fullscreen_witness :
  ServerConsole (openConsole (str "https://panel/server/1a2b")) true false [str "eula"]
  = [ChunkedConsole].
Proof.
  exact (proj2 (proj2 (proj2 (popout_is_fullscreen (str "https://panel/server/1a2b") []
                                true false true [str "eula"]
                                {| connected := true; instance := Some 1;
                                   isTransferring := false |})))).
Defined.


(** X21: outside the full-screen layout the modal of a feature is
    rendered exactly when the name of the feature is among the egg
    features of the server (eula, java_version, gsl_token, pid_limit,
    steam_disk_space); in the full-screen layout none is; and no block is
    rendered twice, even when a name occurs several times among the
    features. *)
Theorem server_console_feature_modals :
  forall (href : jsstring) (isInstalling isTransferring : bool)
         (eggFeatures : list jsstring),
    let view := ServerConsole href isInstalling isTransferring eggFeatures in
    Forall (fun nb : jsstring * Block =>
              In (snd nb) view <->
              includes href (str "/console") = false /\ In (fst nb) eggFeatures)
           feature_modals /\
    NoDup view.
Proof.
  intros href isInstalling isTransferring eggFeatures. cbv zeta.
  pose proof (array_includes_In eggFeatures (str "eula")) as H1.
  pose proof (array_includes_In eggFeatures (str "java_version")) as H2.
  pose proof (array_includes_In eggFeatures (str "gsl_token")) as H3.
  pose proof (array_includes_In eggFeatures (str "pid_limit")) as H4.
  pose proof (array_includes_In eggFeatures (str "steam_disk_space")) as H5.
  unfold ServerConsole, feature_modals.
  destruct (includes href (str "/console")).
  - clear H1 H2 H3 H4 H5. split; [|repeat constructor; simpl; tauto].
    repeat apply Forall_cons; try apply Forall_nil;
      cbn [fst snd In]; intuition discriminate.
  - split.
    + repeat apply Forall_cons; try apply Forall_nil;
        cbn [fst snd]; rewrite <- ?H1, <- ?H2, <- ?H3, <- ?H4, <- ?H5;
        clear H1 H2 H3 H4 H5;
        rewrite !in_app_iff, !In_when; cbn [In];
        destruct isInstalling, isTransferring;
        intuition (try discriminate; try congruence).
    + clear H1 H2 H3 H4 H5.
      repeat first [apply NoDup_cons | apply NoDup_when_app | apply NoDup_when];
        cbn [In]; rewrite ?in_app_iff, ?In_when; cbn [In];
        destruct isInstalling, isTransferring;
        intuition (try discriminate; try congruence).
Qed.
